(** * TUMmer: anchor finder, random-match statistics, input naming and driver

    A shallow embedding of the parts of [process.c], [io.c] and [tummer.c]
    that the specification talks about, together with the properties that
    hold of them.

    Conventions.
    - [size_t] is a 64-bit unsigned integer: a [Z] in [0, 2^64) whose
      arithmetic is reduced with [wrap]; [int] is a 32-bit signed integer.
    - [double] is the kernel's binary64 [float]; the libm function [pow]
      is a parameter of the development.
    - An array is a list; a read outside of it is undefined behaviour in C
      and is the outcome [OutOfBounds] here. [exit] and [errx] are the
      outcome [Exit].
    - A [while] loop whose termination is not evident runs on fuel; running
      out of it is the outcome [OutOfFuel]. *)

From Stdlib Require Import ZArith List Bool Lia Ascii String.
From Stdlib Require Import Uint63 Floats.
Import ListNotations.

Local Open Scope Z_scope.

(** ** Machine integers *)

Definition SIZE_MAX : Z := 2 ^ 64 - 1.
Definition INT_MAX : Z := 2 ^ 31 - 1.

(** Reduction of an integer to [size_t]. *)
Definition wrap (z : Z) : Z := z mod 2 ^ 64.

(** Conversion of an [unsigned long] to [int] (the usual two's
    complement truncation). *)
Definition to_int (z : Z) : Z := (z + 2 ^ 31) mod 2 ^ 32 - 2 ^ 31.

Definition is_size (z : Z) : Prop := 0 <= z <= SIZE_MAX.

(** Conversion of a [size_t] to [double]. The values that reach it (loop
    counters, binomial coefficients, the subject length) are below 2^63,
    where [of_uint63] is the correctly rounded conversion. *)
Definition double_of_size (z : Z) : float :=
  PrimFloat.of_uint63 (Uint63.of_Z z).

(** ** Outcomes of a run *)

Inductive outcome (A : Type) : Type :=
| Done (a : A)
| OutOfBounds
| OutOfFuel
| Exit (status : Z).

Arguments Done {A} a.
Arguments OutOfBounds {A}.
Arguments OutOfFuel {A}.
Arguments Exit {A} status.

Definition bind {A B : Type} (m : outcome A) (k : A -> outcome B) : outcome B :=
  match m with
  | Done a => k a
  | OutOfBounds => OutOfBounds
  | OutOfFuel => OutOfFuel
  | Exit status => Exit status
  end.

Notation "x <- m ;; k" := (bind m (fun x => k))
  (at level 61, m at next level, right associativity).

(** The run came to an end: it returned, or it read outside an array. *)
Definition halts {A : Type} (m : outcome A) : Prop :=
  match m with
  | Done _ | OutOfBounds => True
  | OutOfFuel | Exit _ => False
  end.

(** An array read: [a[idx]]. *)
Definition read {A : Type} (a : list A) (idx : Z) : outcome A :=
  if (0 <=? idx) && (idx <? Z.of_nat (List.length a))
  then match nth_error a (Z.to_nat idx) with
       | Some v => Done v
       | None => OutOfBounds
       end
  else OutOfBounds.

(** ** process.c: random-match statistics *)

(** The body of the [for] loop of [binomial_coefficient], run [cnt] times
    from the counter [i]. *)
Fixpoint binomial_loop (cnt : nat) (n k i res : Z) : Z :=
  match cnt with
  | O => res
  | S c =>
      let res := wrap (res * wrap (wrap (n - k) + i)) in
      let res := res / i in
      binomial_loop c n k (i + 1) res
  end.

Definition binomial_coefficient (n k : Z) : Z :=
  if (n <=? 0) || (k >? n) then 0
  else if (k =? 0) || (k =? n) then 1
  else
    let k := if k >? wrap (n - k) then wrap (n - k) else k in
    binomial_loop (Z.to_nat k) n k 1 1.

(** The exact binomial coefficient, by Pascal's rule. *)
Fixpoint choose (n k : nat) : nat :=
  match n, k with
  | _, O => 1
  | O, S _ => 0
  | S n', S k' => (choose n' k' + choose n' k)%nat
  end.

Section Statistics.

(** [pow] of the C library. *)
Variable pow : float -> float -> float.

Local Open Scope float_scope.

(** The [for] loop of [shuprop], run at most [cnt] times from [k]; the
    [break] leaves it with the saturated sum. *)
Fixpoint shuprop_loop (cnt : nat) (x : Z) (p : float) (l : Z)
         (k : Z) (s : float) : float :=
  match cnt with
  | O => s
  | S c =>
      let xx := double_of_size x in
      let ll := double_of_size l in
      let kk := double_of_size k in
      let t := pow p kk * pow (0.5 - p) (xx - kk) in
      let s := s + pow 2 xx * (t * pow (1 - t) ll)
                   * double_of_size (binomial_coefficient x k) in
      if 1.0 <=? s then 1.0
      else shuprop_loop c x p l (k + 1)%Z s
  end.

Definition shuprop (x : Z) (p : float) (l : Z) : float :=
  shuprop_loop (Z.to_nat (x + 1)) x p l 0%Z 0.0.

(** The [while] loop of [minAnchorLength]. *)
Fixpoint minAnchorLength_loop (fuel : nat) (p g : float) (l : Z)
         (x : Z) (prop : float) : outcome Z :=
  match fuel with
  | O => OutOfFuel
  | S f =>
      if prop <? 1 - p
      then minAnchorLength_loop f p g l (wrap (x + 1)) (shuprop x (g / 2) l)
      else Done x
  end.

Definition minAnchorLength (fuel : nat) (p g : float) (l : Z) : outcome Z :=
  minAnchorLength_loop fuel p g l 1%Z 0.0.

End Statistics.

(** A stand-in for libm's [pow] on the arguments [shuprop] passes to it
    (integral, non-negative exponents): repeated multiplication. It is used
    to run the definitions on concrete inputs only. *)
Fixpoint pow_nat (b : float) (e : nat) : float :=
  match e with
  | O => 1%float
  | S e' => (b * pow_nat b e')%float
  end.

(** The integral part of a non-negative [double]. *)
Definition trunc (f : float) : Z :=
  match Prim2SF f with
  | S754_finite false m e => Z.shiftl (Zpos m) e
  | _ => 0
  end.

Definition pow_int (b e : float) : float := pow_nat b (Z.to_nat (trunc e)).

(** ** printf conversions *)

Definition digit (d : Z) : ascii := ascii_of_nat (48 + Z.to_nat d).

(** The decimal digits of [v], most significant first, in front of [acc]. *)
Fixpoint digits (fuel : nat) (v : Z) (acc : string) : string :=
  match fuel with
  | O => acc
  | S f =>
      let acc := String (digit (v mod 10)) acc in
      if v / 10 =? 0 then acc else digits f (v / 10) acc
  end.

(** [%zu]: a [size_t] has at most 20 decimal digits. *)
Definition dec (v : Z) : string := digits 20 v EmptyString.

Fixpoint spaces (n : nat) : string :=
  match n with
  | O => EmptyString
  | S n' => String " " (spaces n')
  end.

(** [%<width>zu]: padded with spaces on the left up to the minimum field
    width, never truncated. *)
Definition fmt_zu (width : nat) (v : Z) : string :=
  let d := dec v in
  String.append (spaces (width - String.length d)) d.

Definition newline : string := String (ascii_of_nat 10) EmptyString.

(** ["%8zu  %8zu  %8zu\n"] *)
Definition match_line (a b c : Z) : string :=
  String.append (fmt_zu 8 a)
    (String.append "  " (String.append (fmt_zu 8 b)
       (String.append "  " (String.append (fmt_zu 8 c) newline)))).

(** ["%zu %zu %zu\n"] *)
Definition plain_line (a b c : Z) : string :=
  String.append (fmt_zu 0 a)
    (String.append " " (String.append (fmt_zu 0 b)
       (String.append " " (String.append (fmt_zu 0 c) newline)))).

(** The value a string of decimal digits denotes. *)
Fixpoint dec_value (acc : Z) (s : string) : Z :=
  match s with
  | EmptyString => acc
  | String c s' => dec_value (10 * acc + (Z.of_nat (nat_of_ascii c) - 48)) s'
  end.

(** ** esa.h, global.h: declarations used by the anchor finder *)

(** [lcp_inter_t]: the fields [l], [i] and [j] of an LCP interval. *)
Record lcp_inter_t : Type := {
  lcp_l : Z;
  lcp_i : Z;
  lcp_j : Z
}.

(** [esa_s]: the fields [S], [SA] and [len] of the index. *)
Record esa_s : Type := {
  esa_S : list ascii;
  esa_SA : list Z;
  esa_len : Z
}.

(** The process-wide variables of [tummer.c]. *)
Record globals : Type := {
  FLAGS : Z;
  RANDOM_ANCHOR_PROP : float;
  MIN_LENGTH : Z
}.

(** ** process.c: the anchor finder *)

(** The inner [while] loop of [dist_anchor]: the left extension. Its
    condition reads [query[this_pos_Q - 1]] and [C->S[this_pos_S - 1]]
    once [this_pos_Q > 0] holds. *)
Fixpoint left_extend (fuel : nat) (query S : list ascii)
         (this_pos_S this_pos_Q this_length : Z) : outcome (Z * Z * Z) :=
  match fuel with
  | O => OutOfFuel
  | S f =>
      if 0 <? this_pos_Q then
        a <- read query (wrap (this_pos_Q - 1)) ;;
        b <- read S (wrap (this_pos_S - 1)) ;;
        if Ascii.eqb a b
        then left_extend f query S (wrap (this_pos_S - 1))
                         (wrap (this_pos_Q - 1)) (wrap (this_length + 1))
        else Done (this_pos_S, this_pos_Q, this_length)
      else Done (this_pos_S, this_pos_Q, this_length)
  end.

(** The left extension as the specification words it: it also requires
    [pos_S > 0] before it compares. *)
Fixpoint left_extend_guarded (fuel : nat) (query S : list ascii)
         (pos_S pos_Q L : Z) : outcome (Z * Z * Z) :=
  match fuel with
  | O => OutOfFuel
  | S f =>
      if (0 <? pos_Q) && (0 <? pos_S) then
        a <- read query (pos_Q - 1) ;;
        b <- read S (pos_S - 1) ;;
        if Ascii.eqb a b
        then left_extend_guarded f query S (pos_S - 1) (pos_Q - 1) (L + 1)
        else Done (pos_S, pos_Q, L)
      else Done (pos_S, pos_Q, L)
  end.

Section AnchorFinder.

(** [pow] of the C library. *)
Variable pow : float -> float -> float.

(** [get_match_cached] of esa.c: the lookup in the index for the query
    suffix it is handed and the length of that suffix. *)
Variable get_match_cached : esa_s -> list ascii -> Z -> lcp_inter_t.

(** What one iteration of the main loop computes up to the [if]. *)
Definition lookup (C : esa_s) (query : list ascii) (query_length : Z)
           (this_pos_Q : Z) : lcp_inter_t :=
  get_match_cached C (skipn (Z.to_nat this_pos_Q) query)
                   (wrap (query_length - this_pos_Q)).

Definition initial_length (inter : lcp_inter_t) : Z :=
  if lcp_l inter <=? 0 then 0 else wrap (lcp_l inter).

Definition extended (C : esa_s) (query : list ascii) (query_length : Z)
           (this_pos_Q : Z) : outcome (Z * Z * Z) :=
  let inter := lookup C query query_length this_pos_Q in
  sa <- read (esa_SA C) (lcp_i inter) ;;
  left_extend (S (Z.to_nat this_pos_Q)) query (esa_S C)
              (wrap sa) this_pos_Q (initial_length inter).

(** One iteration of the main loop: the lines it prints and the cursor
    it leaves. *)
Definition anchor_step (C : esa_s) (query : list ascii) (query_length : Z)
           (threshold : Z) (this_pos_Q : Z) : outcome (list string * Z) :=
  let inter := lookup C query query_length this_pos_Q in
  r <- extended C query query_length this_pos_Q ;;
  let '(this_pos_S, this_pos_Q, this_length) := r in
  let out :=
    if (lcp_i inter =? lcp_j inter) && (threshold <=? this_length)
    then [match_line (wrap (this_pos_S + 1)) (wrap (this_pos_Q + 1))
                     this_length]
    else [] in
  Done (out, wrap (this_pos_Q + wrap (this_length + 1))).

(** The main loop, [while (this_pos_Q < query_length)]. *)
Fixpoint anchor_loop (fuel : nat) (C : esa_s) (query : list ascii)
         (query_length : Z) (threshold : Z) (this_pos_Q : Z)
  : outcome (list string) :=
  if this_pos_Q <? query_length then
    match fuel with
    | O => OutOfFuel
    | S f =>
        r <- anchor_step C query query_length threshold this_pos_Q ;;
        rest <- anchor_loop f C query query_length threshold (snd r) ;;
        Done (fst r ++ rest)
    end
  else Done [].

(** The iterations of the main loop from a cursor on, as a relation: the
    lines they print, one iteration after the other. *)
Inductive iterations (C : esa_s) (query : list ascii) (query_length : Z)
          (threshold : Z) : Z -> list string -> Prop :=
| iterations_end (q : Z) :
    query_length <= q ->
    iterations C query query_length threshold q []
| iterations_step (q q' : Z) (out rest : list string) :
    q < query_length ->
    anchor_step C query query_length threshold q = Done (out, q') ->
    iterations C query query_length threshold q' rest ->
    iterations C query query_length threshold q (out ++ rest).

(** The choice of the threshold at the head of [dist_anchor]. *)
Definition threshold_of (fuel : nat) (G : globals) (C : esa_s)
           (gc : float) : outcome Z :=
  if negb (MIN_LENGTH G =? 0)
  then Done (wrap (MIN_LENGTH G))
  else minAnchorLength pow fuel (RANDOM_ANCHOR_PROP G) gc
                       (wrap (esa_len C)).

(** The closing [if] of [dist_anchor]. *)
Definition identical_note (last_pos_S last_length query_length : Z)
  : list string :=
  if last_length >=? query_length
  then [plain_line last_pos_S 0 query_length]
  else [].

Definition dist_anchor (fuel : nat) (G : globals) (C : esa_s)
           (query : list ascii) (query_length : Z) (gc : float)
  : outcome (list string) :=
  let last_pos_S := 0 in
  let last_length := 0 in
  let this_pos_Q := 0 in
  threshold <- threshold_of fuel G C gc ;;
  out <- anchor_loop fuel C query query_length threshold this_pos_Q ;;
  Done (out ++ identical_note last_pos_S last_length query_length).

End AnchorFinder.

(** Modelled from the spec: [get_match_cached], whose file esa.c is not
    among the sources. It returns the LCP interval of the longest prefix of
    the query that occurs in S: the range [i, j] of the suffix array whose
    suffixes start with that prefix, together with its length. The query
    has [qlen] characters. *)
Fixpoint lcp_len (a b : list ascii) : Z :=
  match a, b with
  | x :: a', y :: b' => if Ascii.eqb x y then 1 + lcp_len a' b' else 0
  | _, _ => 0
  end.

Definition match_lengths (C : esa_s) (q : list ascii) : list Z :=
  map (fun p => lcp_len (skipn (Z.to_nat p) (esa_S C)) q) (esa_SA C).

Fixpoint first_index (m : Z) (ls : list Z) (idx : Z) : Z :=
  match ls with
  | [] => idx
  | x :: ls' => if x =? m then idx else first_index m ls' (idx + 1)
  end.

Fixpoint last_index (m : Z) (ls : list Z) (idx found : Z) : Z :=
  match ls with
  | [] => found
  | x :: ls' => last_index m ls' (idx + 1) (if x =? m then idx else found)
  end.

Definition get_match_longest (C : esa_s) (query : list ascii) (qlen : Z)
  : lcp_inter_t :=
  let ls := match_lengths C (firstn (Z.to_nat qlen) query) in
  let m := fold_right Z.max 0 ls in
  {| lcp_l := m; lcp_i := first_index m ls 0; lcp_j := last_index m ls 0 0 |}.

(** Whether [SA] lists the suffixes of [S] in increasing order. *)
Fixpoint ascii_list_ltb (a b : list ascii) : bool :=
  match a, b with
  | [], _ :: _ => true
  | x :: a', y :: b' =>
      (nat_of_ascii x <? nat_of_ascii y)%nat
      || (Ascii.eqb x y && ascii_list_ltb a' b')
  | _, [] => false
  end.

Fixpoint suffixes_sorted (S : list ascii) (SA : list Z) : bool :=
  match SA with
  | p :: ((p' :: _) as rest) =>
      ascii_list_ltb (skipn (Z.to_nat p) S) (skipn (Z.to_nat p') S)
      && suffixes_sorted S rest
  | _ => true
  end.

Definition subject_example : esa_s :=
  {| esa_S := list_ascii_of_string "ACGT#TGCA$";
     esa_SA := [4; 9; 8; 0; 7; 1; 6; 2; 3; 5];
     esa_len := 10 |}.

Definition globals_example : globals :=
  {| FLAGS := 0; RANDOM_ANCHOR_PROP := 0.25%float; MIN_LENGTH := 3 |}.

(** ** sequence.h: declarations used by the driver *)

(** [seq_t]: the fields [S], [len], [name] and [gc] of a sequence. *)
Record seq_t : Type := {
  seq_S : list ascii;
  seq_len : Z;
  seq_name : string;
  seq_gc : float
}.

Definition with_name (s : seq_t) (name : string) : seq_t :=
  {| seq_S := seq_S s; seq_len := seq_len s; seq_name := name;
     seq_gc := seq_gc s |}.

(** ** io.c *)

(** [strrchr (s, c)] for a character [c] other than NUL: the suffix of
    [s] that starts at the last occurrence of [c], if there is one. *)
Fixpoint strrchr (s : string) (c : ascii) : option string :=
  match s with
  | EmptyString => None
  | String x s' =>
      match strrchr s' c with
      | Some r => Some r
      | None => if Ascii.eqb x c then Some s else None
      end
  end.

(** [strchrnul (s, c)]: the suffix of [s] that starts at the first
    occurrence of [c], or the empty suffix at the end of [s]. *)
Fixpoint strchrnul (s : string) (c : ascii) : string :=
  match s with
  | EmptyString => EmptyString
  | String x s' => if Ascii.eqb x c then s else strchrnul s' c
  end.

(** [strndup (s, n)]: the first [n] characters of [s]. *)
Fixpoint strndup (s : string) (n : nat) : string :=
  match n, s with
  | S n', String x s' => String x (strndup s' n')
  | _, _ => EmptyString
  end.

(** [left + 1]. *)
Definition next (p : string) : string :=
  match p with
  | EmptyString => EmptyString
  | String _ p' => p'
  end.

(** The character [c] occurs in [s]. *)
Definition occurs (c : ascii) (s : string) : Prop :=
  In c (list_ascii_of_string s).

(** The name [read_fasta_join] gives to the joined sequence. A pointer
    into [file_name] is the suffix that starts there, and the difference
    [dot - left] is the difference of the lengths. *)
Definition join_name (file_name : string) : string :=
  let left := strrchr file_name "/" in
  let left := match left with
              | None => file_name
              | Some slash => next slash
              end in
  let dot := strchrnul left "." in
  strndup left (String.length left - String.length dot).

(** Where [read_fasta] reads from. *)
Inductive source : Type :=
| Stdin
| File (path : string).

Definition fasta_source (file_name : string) : source :=
  if String.eqb file_name "-" then Stdin else File file_name.

Section Io.

(** The sequences [read_fasta] pushes for what it reads from a source
    (the parser is the pfasta library), and [dsa_join] of sequence.c. *)
Variable parse_fasta : source -> list seq_t.
Variable dsa_join : list seq_t -> seq_t.

Definition read_fasta (file_name : string) (dsa : list seq_t)
  : list seq_t :=
  dsa ++ parse_fasta (fasta_source file_name).

Definition read_fasta_join (file_name : string) (dsa : list seq_t)
  : list seq_t :=
  let single := read_fasta file_name [] in
  if (List.length single =? 0)%nat then dsa
  else
    let joined := dsa_join single in
    let joined := with_name joined (join_name file_name) in
    dsa ++ [joined].

End Io.

(** ** tummer.c *)

(** What [getopt_long] returns for the option string ["bhjrvp:l:"] and the
    long options of [main], with [optarg] where the option takes one. *)
Inductive getopt_result : Type :=
| Opt_version         (* 0: --version, which sets [version_flag] *)
| Opt_b
| Opt_h
| Opt_j
| Opt_r
| Opt_v
| Opt_p (optarg : string)
| Opt_l (optarg : string)
| Opt_unknown.        (* '?' *)

Record main_state : Type := {
  st_globals : globals;
  version_flag : bool
}.

Definition with_FLAGS (st : main_state) (flags : Z) : main_state :=
  {| st_globals := {| FLAGS := flags;
                      RANDOM_ANCHOR_PROP := RANDOM_ANCHOR_PROP (st_globals st);
                      MIN_LENGTH := MIN_LENGTH (st_globals st) |};
     version_flag := version_flag st |}.

Definition with_RANDOM_ANCHOR_PROP (st : main_state) (prop : float)
  : main_state :=
  {| st_globals := {| FLAGS := FLAGS (st_globals st);
                      RANDOM_ANCHOR_PROP := prop;
                      MIN_LENGTH := MIN_LENGTH (st_globals st) |};
     version_flag := version_flag st |}.

Definition with_MIN_LENGTH (st : main_state) (length : Z) : main_state :=
  {| st_globals := {| FLAGS := FLAGS (st_globals st);
                      RANDOM_ANCHOR_PROP := RANDOM_ANCHOR_PROP (st_globals st);
                      MIN_LENGTH := length |};
     version_flag := version_flag st |}.

Definition with_version_flag (st : main_state) : main_state :=
  {| st_globals := st_globals st; version_flag := true |}.

(** [(INT_MAX - 1) / 2] *)
Definition LENGTH_LIMIT : Z := (INT_MAX - 1) / 2.

Inductive reader : Type :=
| Read_fasta
| Read_fasta_join.

Section Driver.

(** The flag bits of global.h. *)
Variables F_FORWARD F_REVCOMP F_JOIN F_VERBOSE F_EXTRA_VERBOSE : Z.

(** [strtod] and [strtoul] of the C library on an option argument:
    [None] when [errno || end == optarg || *end != 0]. *)
Variable strtod : string -> option float.
Variable strtoul : string -> option Z.

Variable pow : float -> float -> float.
Variable get_match_cached : esa_s -> list ascii -> Z -> lcp_inter_t.
Variable parse_fasta : source -> list seq_t.
Variable dsa_join : list seq_t -> seq_t.

(** [seq_subject_init] with [esa_init] ([None] when either fails), and
    [revcomp], of sequence.c and esa.c. *)
Variable esa_init : seq_t -> option esa_s.
Variable revcomp : list ascii -> Z -> list ascii.

Definition initial_state : main_state :=
  {| st_globals := {| FLAGS := F_FORWARD;
                      RANDOM_ANCHOR_PROP := 0x1.999999999999ap-5%float;
                      MIN_LENGTH := 0 |};
     version_flag := false |}.

Definition flag_set (flags bit : Z) : bool := negb (Z.land flags bit =? 0).

(** Whether [run] makes the forward and the reverse-complement pass:
    [FLAGS & F_FORWARD] and [FLAGS & F_REVCOMP]. *)
Definition forward_pass (st : main_state) : bool :=
  flag_set (FLAGS (st_globals st)) F_FORWARD.
Definition reverse_pass (st : main_state) : bool :=
  flag_set (FLAGS (st_globals st)) F_REVCOMP.

(** The [switch] of the option loop; [usage] leaves the program. *)
Definition parse_option (st : main_state) (c : getopt_result)
  : outcome main_state :=
  let flags := FLAGS (st_globals st) in
  match c with
  | Opt_version => Done (with_version_flag st)
  | Opt_b => Done (with_FLAGS st (Z.lor flags (Z.lor F_FORWARD F_REVCOMP)))
  | Opt_h => Exit 0
  | Opt_j => Done (with_FLAGS st (Z.lor flags F_JOIN))
  | Opt_r =>
      let flags := Z.land flags (Z.lnot F_FORWARD) in
      let flags := Z.lor flags F_REVCOMP in
      Done (with_FLAGS st flags)
  | Opt_v =>
      Done (with_FLAGS st
              (Z.lor flags (if flag_set flags F_VERBOSE
                            then F_EXTRA_VERBOSE else F_VERBOSE)))
  | Opt_p optarg =>
      match strtod optarg with
      | None => Done st
      | Some prop =>
          if (prop <? 0.0)%float || (1.0 <? prop)%float then Done st
          else Done (with_RANDOM_ANCHOR_PROP st prop)
      end
  | Opt_l optarg =>
      match strtoul optarg with
      | None => Done st
      | Some length => Done (with_MIN_LENGTH st (to_int length))
      end
  | Opt_unknown => Exit 0
  end.

(** The option loop, over what [getopt_long] returns until it returns -1. *)
Fixpoint parse_options (st : main_state) (cs : list getopt_result)
  : outcome main_state :=
  match cs with
  | [] => Done st
  | c :: cs' => st' <- parse_option st c ;; parse_options st' cs'
  end.

(** The loop [for (;; minfiles--)] over the positional arguments: the
    calls of the readers it makes, in order. *)
Fixpoint parse_files (fuel : nat) (flags : Z) (argv : list string)
         (minfiles : Z) : outcome (list (reader * string)) :=
  match fuel with
  | O => OutOfFuel
  | S f =>
      let call file_name argv :=
        rest <- parse_files f flags argv (minfiles - 1) ;;
        Done ((if flag_set flags F_JOIN then Read_fasta_join else Read_fasta,
               file_name) :: rest) in
      match argv with
      | [] => if minfiles <=? 0 then Done [] else call "-"%string []
      | file_name :: argv' => call file_name argv'
      end
  end.

Definition call_reader (dsa : list seq_t) (call : reader * string)
  : list seq_t :=
  match fst call with
  | Read_fasta_join => read_fasta_join parse_fasta dsa_join (snd call) dsa
  | Read_fasta => read_fasta parse_fasta (snd call) dsa
  end.

(** The checks of [main] on the sequences it has read. *)
Fixpoint validate (seqs : list seq_t) : outcome unit :=
  match seqs with
  | [] => Done tt
  | seq :: seqs' =>
      if seq_len seq >? LENGTH_LIMIT then Exit 1
      else if seq_len seq =? 0 then Exit 1
      else validate seqs'
  end.

Definition header (name : string) (reverse : bool) : string :=
  String.append "> "
    (String.append name
       (String.append (if reverse then " Reverse" else "") newline)).

(** The body of the loop of [run] for the query [sequences[j]]. *)
Definition run_query (fuel : nat) (G : globals) (E : esa_s)
           (subject query : seq_t) : outcome (list string) :=
  let ql := seq_len query in
  forward <-
    (if flag_set (FLAGS G) F_FORWARD then
       out <- dist_anchor pow get_match_cached fuel G E
                          (seq_S query) ql (seq_gc subject) ;;
       Done (header (seq_name query) false :: out)
     else Done []) ;;
  reverse <-
    (if flag_set (FLAGS G) F_REVCOMP then
       let R := revcomp (seq_S query) ql in
       out <- dist_anchor pow get_match_cached fuel G E
                          R ql (seq_gc subject) ;;
       Done (header (seq_name query) true :: out)
     else Done []) ;;
  Done (forward ++ reverse).

Fixpoint run_queries (fuel : nat) (G : globals) (E : esa_s)
         (subject : seq_t) (queries : list seq_t) : outcome (list string) :=
  match queries with
  | [] => Done []
  | query :: queries' =>
      out <- run_query fuel G E subject query ;;
      rest <- run_queries fuel G E subject queries' ;;
      Done (out ++ rest)
  end.

(** [run]: the first sequence is the subject, every other one a query. *)
Definition run (fuel : nat) (G : globals) (sequences : list seq_t)
  : outcome (list string) :=
  match sequences with
  | [] => Done []
  | subject :: queries =>
      match esa_init subject with
      | None => Exit 1
      | Some E => run_queries fuel G E subject queries
      end
  end.

(** [main], from what [getopt_long] returns and the positional
    arguments left in [argv]. *)
Definition main (fuel : nat) (cs : list getopt_result)
           (argv : list string) : outcome (list string) :=
  st <- parse_options initial_state cs ;;
  if version_flag st then Exit 0 else
  let G := st_globals st in
  if flag_set (FLAGS G) F_JOIN && (List.length argv =? 0)%nat then Exit 1 else
  let minfiles := if flag_set (FLAGS G) F_JOIN then 2 else 1 in
  calls <- parse_files fuel (FLAGS G) argv minfiles ;;
  let dsa := fold_left call_reader calls [] in
  if (List.length dsa <? 2)%nat then Exit 1 else
  _ <- validate dsa ;;
  run fuel G dsa.

End Driver.

(** ** Notions the further properties are stated with *)

(** The options on which [main] calls [usage]. *)
Definition calls_usage (c : getopt_result) : bool :=
  match c with
  | Opt_h | Opt_unknown => true
  | _ => false
  end.

Definition is_Opt_v (c : getopt_result) : bool :=
  match c with
  | Opt_v => true
  | _ => false
  end.

Definition is_Opt_l (c : getopt_result) : bool :=
  match c with
  | Opt_l _ => true
  | _ => false
  end.

(** What [left] points to in [read_fasta_join] once the directories are
    skipped. *)
Definition basename (file_name : string) : string :=
  match strrchr file_name "/" with
  | None => file_name
  | Some slash => next slash
  end.

(** ** The output of a run, as the claims word it *)

Section RunAtThreshold.

Variables F_FORWARD F_REVCOMP : Z.
Variable get_match_cached : esa_s -> list ascii -> Z -> lcp_inter_t.
Variable revcomp : list ascii -> Z -> list ascii.

(** The lines of the iterations of the main loop from the cursor [q] on.
    An iteration finds the match [(pos_S, pos_Q, L)] by the lookup and
    the left extension and goes on at [pos_Q + L + 1]. It prints the line
    of [(pos_S + 1, pos_Q + 1, L)] if the interval of the lookup is a
    singleton and [L] reaches the threshold, and nothing otherwise. *)
Inductive emits (C : esa_s) (query : list ascii) (m thr : Z)
  : Z -> list string -> Prop :=
| emits_end (q : Z) :
    m <= q ->
    emits C query m thr q []
| emits_line (q pos_S pos_Q L : Z) (rest : list string) :
    q < m ->
    extended get_match_cached C query m q = Done (pos_S, pos_Q, L) ->
    lcp_i (lookup get_match_cached C query m q)
    = lcp_j (lookup get_match_cached C query m q) ->
    thr <= L ->
    emits C query m thr (wrap (pos_Q + wrap (L + 1))) rest ->
    emits C query m thr q
          (match_line (wrap (pos_S + 1)) (wrap (pos_Q + 1)) L :: rest)
| emits_nothing (q pos_S pos_Q L : Z) (rest : list string) :
    q < m ->
    extended get_match_cached C query m q = Done (pos_S, pos_Q, L) ->
    lcp_i (lookup get_match_cached C query m q)
    <> lcp_j (lookup get_match_cached C query m q)
    \/ L < thr ->
    emits C query m thr (wrap (pos_Q + wrap (L + 1))) rest ->
    emits C query m thr q rest.

(** What a call of [dist_anchor] prints when its threshold is [tau]. *)
Definition anchor_lines (fuel : nat) (C : esa_s) (query : list ascii)
           (query_length : Z) (tau : Z) : outcome (list string) :=
  out <- anchor_loop get_match_cached fuel C query query_length tau 0 ;;
  Done (out ++ identical_note 0 0 query_length).

(** What [run] prints for a query when every call of [dist_anchor] has
    the threshold [tau]: the block of the forward pass, then that of the
    reverse-complement pass. *)
Definition query_at_threshold (fuel : nat) (flags : Z) (E : esa_s)
           (tau : Z) (query : seq_t) : outcome (list string) :=
  let ql := seq_len query in
  forward <-
    (if flag_set flags F_FORWARD then
       out <- anchor_lines fuel E (seq_S query) ql tau ;;
       Done (header (seq_name query) false :: out)
     else Done []) ;;
  reverse <-
    (if flag_set flags F_REVCOMP then
       out <- anchor_lines fuel E (revcomp (seq_S query) ql) ql tau ;;
       Done (header (seq_name query) true :: out)
     else Done []) ;;
  Done (forward ++ reverse).

Fixpoint run_at_threshold (fuel : nat) (flags : Z) (E : esa_s) (tau : Z)
         (queries : list seq_t) : outcome (list string) :=
  match queries with
  | [] => Done []
  | query :: queries' =>
      out <- query_at_threshold fuel flags E tau query ;;
      rest <- run_at_threshold fuel flags E tau queries' ;;
      Done (out ++ rest)
  end.

End RunAtThreshold.

(** A subject whose match lies far from its start: 123456789 times T,
    then ACG. ACG is its least suffix and occurs once, so the interval of
    the query ACG is the singleton [0, 0] of length 3, with
    SA[0] = 123456789. Of the suffix array the entries of the three
    suffixes of ACG are given; the iteration reads the first. *)
Definition far_subject : esa_s :=
  {| esa_S := repeat "T"%char (Z.to_nat 123456789)
              ++ list_ascii_of_string "ACG";
     esa_SA := [123456789; 123456790; 123456791];
     esa_len := 123456792 |}.

(** What [get_match_cached] returns for that subject and the query ACG. *)
Definition far_lookup (C : esa_s) (query : list ascii) (qlen : Z)
  : lcp_inter_t :=
  {| lcp_l := 3; lcp_i := 0; lcp_j := 0 |}.

(** Modelled from the spec: [revcomp], whose file sequence.c is not among
    the sources. The reverse complement maps A to T, C to G and back,
    leaves every other byte, and reverses the byte order. *)
Definition complement (c : ascii) : ascii :=
  if Ascii.eqb c "A" then "T"%char
  else if Ascii.eqb c "T" then "A"%char
  else if Ascii.eqb c "C" then "G"%char
  else if Ascii.eqb c "G" then "C"%char
  else c.

Definition reverse_complement (S : list ascii) (len : Z) : list ascii :=
  map complement (rev S).

(** A run for the concrete cases: the subject ACGT, whose index is
    [subject_example], and the queries ACGT and TGCA. *)
Definition sequence_example (S : string) : seq_t :=
  {| seq_S := list_ascii_of_string S;
     seq_len := Z.of_nat (String.length S);
     seq_name := S;
     seq_gc := 0.5%float |}.

Definition sequences_example : list seq_t :=
  map sequence_example ["ACGT"; "ACGT"; "TGCA"]%string.

(** * Properties *)

(** ** Machine integers *)

Lemma wrap_small (z : Z) : 0 <= z < 2 ^ 64 -> wrap z = z.
Proof. intros H. unfold wrap. apply Z.mod_small. exact H. Qed.

Lemma wrap_range (z : Z) : 0 <= wrap z < 2 ^ 64.
Proof. unfold wrap. apply Z.mod_pos_bound. lia. Qed.

(** ** Binomial coefficients *)

Section Choose.

Local Open Scope nat_scope.

Lemma choose_0_r (n : nat) : choose n 0 = 1.
Proof. destruct n; reflexivity. Qed.

Lemma choose_gt (n : nat) : forall k, n < k -> choose n k = 0.
Proof.
  induction n as [|n IH]; intros [|k] H; simpl; try lia.
  rewrite !IH by lia. reflexivity.
Qed.

Lemma choose_diag (n : nat) : choose n n = 1.
Proof.
  induction n as [|n IH]; simpl; [reflexivity|].
  rewrite IH, choose_gt by lia. reflexivity.
Qed.

(** The absorption identity, which is what makes the division in the
    loop exact. *)
Lemma choose_absorb (n : nat) :
  forall k, S k * choose (S n) (S k) = S n * choose n k.
Proof.
  induction n as [|n IH]; intros k.
  - destruct k as [|k]; simpl; lia.
  - change (choose (S (S n)) (S k))
      with (choose (S n) k + choose (S n) (S k)).
    destruct k as [|k].
    + specialize (IH 0). rewrite !choose_0_r in *. lia.
    + pose proof (IH k) as H1. pose proof (IH (S k)) as H2.
      assert (E : choose (S n) (S k) = choose n k + choose n (S k))
        by reflexivity.
      nia.
Qed.

Lemma choose_sym (n : nat) :
  forall k, k <= n -> choose n k = choose n (n - k).
Proof.
  induction n as [|n IH]; intros k Hk.
  - replace k with 0 by lia. reflexivity.
  - destruct k as [|k].
    + rewrite Nat.sub_0_r, choose_diag. reflexivity.
    + destruct (Nat.eq_dec k n) as [->|Hne].
      * rewrite Nat.sub_diag, choose_diag. reflexivity.
      * replace (S n - S k) with (S (n - S k)) by lia.
        simpl. rewrite (IH k), (IH (S k)) by lia.
        replace (n - k) with (S (n - S k)) by lia. lia.
Qed.

Lemma choose_le_pow2 (n : nat) : forall k, choose n k <= 2 ^ n.
Proof.
  induction n as [|n IH]; intros [|k]; simpl; try lia.
  - pose proof (Nat.pow_nonzero 2 n). lia.
  - pose proof (IH k). pose proof (IH (S k)). lia.
Qed.

End Choose.

Lemma two_pow_64 : 2 ^ 64 = 18446744073709551616.
Proof. reflexivity. Qed.

Lemma choose_bound_Z (n k : nat) :
  (n <= 57)%nat -> Z.of_nat (choose n k) <= 2 ^ 57.
Proof.
  intros Hn.
  apply Z.le_trans with (Z.of_nat (2 ^ n)).
  - apply Nat2Z.inj_le, choose_le_pow2.
  - rewrite Nat2Z.inj_pow. apply Z.pow_le_mono_r; lia.
Qed.

(** Loop invariant of [binomial_coefficient]: entering the iteration with
    counter [i' + 1], [res] holds C(n - k + i', i'). Neither the product
    nor the counter wraps as long as n <= 58. *)
Lemma binomial_loop_exact :
  forall (cnt d i' : nat) (n k : Z),
    n - k = Z.of_nat d ->
    (d + i' + cnt <= 58)%nat ->
    binomial_loop cnt n k (Z.of_nat (S i')) (Z.of_nat (choose (d + i') i'))
    = Z.of_nat (choose (d + i' + cnt) (i' + cnt)).
Proof.
  induction cnt as [|cnt IH]; intros d i' n k Hd Hb.
  - simpl. rewrite !Nat.add_0_r. reflexivity.
  - cbn [binomial_loop]. rewrite Hd.
    pose proof two_pow_64 as E64.
    assert (E57 : 2 ^ 57 = 144115188075855872) by reflexivity.
    pose proof (choose_bound_Z (d + i') i' ltac:(lia)) as Hc.
    pose proof (Nat2Z.is_nonneg (choose (d + i') i')) as Hc0.
    rewrite (wrap_small (Z.of_nat d)) by lia.
    rewrite (wrap_small (Z.of_nat d + Z.of_nat (S i'))) by lia.
    rewrite wrap_small by nia.
    pose proof (choose_absorb (d + i') i') as Habs.
    apply (f_equal Z.of_nat) in Habs.
    rewrite !Nat2Z.inj_mul in Habs.
    replace (Z.of_nat (choose (d + i') i') * (Z.of_nat d + Z.of_nat (S i')))
      with (Z.of_nat (choose (S (d + i')) (S i')) * Z.of_nat (S i'))
      by (rewrite Z.mul_comm, Habs; lia).
    rewrite Z.div_mul by lia.
    replace (Z.of_nat (S i') + 1) with (Z.of_nat (S (S i'))) by lia.
    replace (S (d + i')) with (d + S i')%nat by lia.
    rewrite (IH d (S i') n k Hd) by lia.
    f_equal. f_equal; lia.
Qed.

(** Away from (0, 0), [binomial_coefficient n k] is the exact binomial
    coefficient C(n, k) for every n <= 30, which is 0 when k > n. *)
Lemma binomial_coefficient_exact (n k : Z) :
  0 <= n <= 30 -> 0 <= k <= SIZE_MAX ->
  ((n, k) <> (0, 0) ->
   binomial_coefficient n k = Z.of_nat (choose (Z.to_nat n) (Z.to_nat k)))
  /\ (n < k -> binomial_coefficient n k = 0).
Proof.
  intros Hn Hk.
  assert (Hgt : n < k -> binomial_coefficient n k = 0).
  { intros H. unfold binomial_coefficient.
    destruct (Z.gtb_spec k n); [|lia]. rewrite orb_true_r. reflexivity. }
  split; [| exact Hgt].
  intros Hne.
  destruct (Z.lt_ge_cases n k) as [Hlt|Hge].
  { rewrite (Hgt Hlt), choose_gt by lia. reflexivity. }
  assert (Hn0 : 0 < n).
  { destruct (Z.eq_dec n 0) as [->|]; [|lia].
    assert (k = 0) by lia. subst k. congruence. }
  unfold binomial_coefficient.
  destruct (Z.leb_spec n 0); [lia|].
  destruct (Z.gtb_spec k n); [lia|]. cbn [orb].
  destruct (Z.eqb_spec k 0) as [->|Hk0]; cbn [orb].
  { rewrite choose_0_r. reflexivity. }
  destruct (Z.eqb_spec k n) as [->|Hk1].
  { rewrite choose_diag. reflexivity. }
  pose proof two_pow_64 as E64.
  rewrite (wrap_small (n - k)) by lia.
  set (k' := if k >? n - k then n - k else k).
  assert (Hk' : 0 < k' <= n - 1 /\
                choose (Z.to_nat n) (Z.to_nat k')
                = choose (Z.to_nat n) (Z.to_nat k)).
  { subst k'. destruct (Z.gtb_spec k (n - k)).
    - split; [lia|].
      rewrite (choose_sym (Z.to_nat n) (Z.to_nat k)) by lia.
      f_equal. lia.
    - split; [lia | reflexivity]. }
  destruct Hk' as [Hr Hs]. rewrite <- Hs.
  pose proof (binomial_loop_exact (Z.to_nat k') (Z.to_nat (n - k')) 0
                n k' ltac:(lia) ltac:(lia)) as L.
  rewrite Nat.add_0_r, choose_0_r in L.
  change (Z.of_nat 1) with 1 in L. rewrite L.
  f_equal. f_equal; lia.
Qed.


(** ** Comparisons of doubles *)

Lemma SFcompare_antisym (a b : spec_float) :
  SFcompare b a = option_map CompOpp (SFcompare a b).
Proof.
  destruct a as [sa|sa| |sa ma ea], b as [sb|sb| |sb mb eb]; cbn;
    try reflexivity;
    try (destruct sa; reflexivity); try (destruct sb; reflexivity);
    try (destruct sa, sb; reflexivity).
  destruct sa, sb; cbn; try reflexivity; f_equal;
    rewrite (Z.compare_antisym ea eb);
    destruct (ea ?= eb)%Z; cbn; try reflexivity;
    rewrite (Pos.compare_cont_antisym); cbn;
    try rewrite CompOpp_involutive; reflexivity.
Qed.

(** [a >= b] in C is [b <= a]; when it holds, [a < b] does not. *)
Lemma leb_ltb_false (a b : float) :
  (b <=? a)%float = true -> (a <? b)%float = false.
Proof.
  rewrite leb_spec, ltb_spec. unfold SFleb, SFltb.
  rewrite (SFcompare_antisym (Prim2SF a) (Prim2SF b)).
  destruct (SFcompare (Prim2SF a) (Prim2SF b)) as [[| |]|]; cbn;
    congruence.
Qed.

(** Unless one of the two is NaN, [a < b] holds when [a >= b] does not. *)
Lemma leb_false_ltb (a b : float) :
  (a =? a)%float = true -> (b =? b)%float = true ->
  (b <=? a)%float = false -> (a <? b)%float = true.
Proof.
  rewrite !eqb_spec, leb_spec, ltb_spec. unfold SFeqb, SFleb, SFltb.
  rewrite (SFcompare_antisym (Prim2SF a) (Prim2SF b)).
  destruct (Prim2SF a) as [sa|sa| |sa ma ea],
           (Prim2SF b) as [sb|sb| |sb mb eb];
    cbn; try congruence;
    try (destruct sa; cbn; congruence); try (destruct sb; cbn; congruence);
    try (destruct sa, sb; cbn; congruence).
  destruct sa, sb; cbn;
    destruct (ea ?= eb)%Z; cbn; try congruence;
    destruct (PosDef.Pos.compare_cont Eq ma mb); cbn; congruence.
Qed.

(** ** The minimum anchor length *)

Section StatisticsProperties.

Variable pow : float -> float -> float.

Local Open Scope float_scope.

Lemma minAnchorLength_loop_S (fuel : nat) (p g : float) (l x : Z)
      (prop : float) :
  minAnchorLength_loop pow (S fuel) p g l x prop
  = if prop <? 1 - p
    then minAnchorLength_loop pow fuel p g l (wrap (x + 1))
                              (shuprop pow x (g / 2) l)
    else Done x.
Proof. reflexivity. Qed.

(** The loop entered with [prop = shuprop (x0, g / 2, l)] and the counter
    at [x0 + 1] leaves at the first [x >= x0] whose probability is not
    below [1 - p], with the counter at [x + 1]. *)
Lemma minAnchorLength_loop_run (p g : float) (l x : Z) :
  (shuprop pow x (g / 2) l <? 1 - p) = false ->
  forall (d fuel : nat) (x0 : Z),
    1 <= x0 -> x = (x0 + Z.of_nat d)%Z -> (x < SIZE_MAX)%Z ->
    (d < fuel)%nat ->
    (forall y, (x0 <= y < x)%Z ->
               (shuprop pow y (g / 2) l <? 1 - p) = true) ->
    minAnchorLength_loop pow fuel p g l (x0 + 1)
                         (shuprop pow x0 (g / 2) l)
    = Done (x + 1)%Z.
Proof.
  intros Hx. induction d as [|d IH]; intros fuel x0 H0 E Hmax Hf Hlt.
  - destruct fuel as [|fuel]; [lia|].
    rewrite minAnchorLength_loop_S.
    replace x0 with x by lia. rewrite Hx. reflexivity.
  - destruct fuel as [|fuel]; [lia|].
    rewrite minAnchorLength_loop_S, (Hlt x0) by lia.
    rewrite wrap_small by (unfold SIZE_MAX in Hmax; lia).
    apply IH; try lia. intros y Hy. apply Hlt. lia.
Qed.

(** The loop leaves at the first x >= 1 at which its test
    [prop < 1 - p] fails, if it is entered at all. *)
Lemma minAnchorLength_exit (p g : float) (l x : Z) (fuel : nat) :
  (1 <= x < SIZE_MAX)%Z ->
  (Z.to_nat x < fuel)%nat ->
  (forall y, (1 <= y < x)%Z ->
             (shuprop pow y (g / 2) l <? 1 - p) = true) ->
  (shuprop pow x (g / 2) l <? 1 - p) = false ->
  minAnchorLength pow fuel p g l
  = Done (if 0 <? 1 - p then (x + 1)%Z else 1%Z).
Proof.
  intros Hx Hf Hlt Hge. unfold minAnchorLength.
  destruct fuel as [|fuel]; [lia|].
  rewrite minAnchorLength_loop_S.
  destruct (0 <? 1 - p); [|reflexivity].
  change (wrap (1 + 1)) with (1 + 1)%Z.
  apply (minAnchorLength_loop_run p g l x Hge (Z.to_nat (x - 1)));
    try lia. exact Hlt.
Qed.

(** C4, as the code has it. Let x >= 1 be the smallest length with
    [shuprop (x, g / 2, l) >= 1 - p], the probabilities of the lengths
    before it being below [1 - p]. When [0 < 1 - p],
    [minAnchorLength (p, g, l)] returns x + 1; when [1 - p] is not
    positive (p = 1) the loop is not entered and it returns 1. *)
Theorem minAnchorLength_first (p g : float) (l x : Z) (fuel : nat) :
  (1 <= x < SIZE_MAX)%Z ->
  (Z.to_nat x < fuel)%nat ->
  (forall y, (1 <= y < x)%Z ->
             (shuprop pow y (g / 2) l <? 1 - p) = true) ->
  (1 - p <=? shuprop pow x (g / 2) l) = true ->
  minAnchorLength pow fuel p g l
  = Done (if 0 <? 1 - p then (x + 1)%Z else 1%Z).
Proof.
  intros Hx Hf Hlt Hge.
  apply minAnchorLength_exit; try assumption.
  apply leb_ltb_false, Hge.
Qed.

End StatisticsProperties.

(** ** printf conversions *)

Section Printf.

Local Open Scope string_scope.

Lemma append_assoc (a b c : string) : (a ++ b) ++ c = a ++ (b ++ c).
Proof. induction a as [|x a IH]; simpl; [reflexivity | now rewrite IH]. Qed.

Lemma length_append (a b : string) :
  String.length (a ++ b) = (String.length a + String.length b)%nat.
Proof. induction a as [|x a IH]; simpl; [reflexivity | now rewrite IH]. Qed.

Lemma length_spaces (n : nat) : String.length (spaces n) = n.
Proof. induction n as [|n IH]; simpl; [reflexivity | now rewrite IH]. Qed.

Lemma dec_value_append (s t : string) :
  forall acc, dec_value acc (s ++ t) = dec_value (dec_value acc s) t.
Proof. induction s as [|x s IH]; intros acc; simpl; [reflexivity | apply IH]. Qed.

Lemma digit_value (d : Z) :
  0 <= d < 10 -> Z.of_nat (nat_of_ascii (digit d)) - 48 = d.
Proof.
  intros H. unfold digit. rewrite nat_ascii_embedding; lia.
Qed.

Lemma digits_S (fuel : nat) (v : Z) (acc : string) :
  digits (S fuel) v acc
  = if (v / 10 =? 0)%Z then String (digit (v mod 10)) acc
    else digits fuel (v / 10) (String (digit (v mod 10)) acc).
Proof. reflexivity. Qed.

(** [digits] puts in front of [acc] a non-empty string of at most [fuel]
    digits whose value is [v]. *)
Lemma digits_spec (fuel : nat) :
  forall v acc,
    0 <= v < 10 ^ Z.of_nat (S fuel) ->
    exists s,
      digits (S fuel) v acc = s ++ acc
      /\ (1 <= String.length s <= S fuel)%nat
      /\ (forall k : nat, v < 10 ^ Z.of_nat k -> (1 <= k)%nat ->
                          (String.length s <= k)%nat)
      /\ (forall a, dec_value a s = a * 10 ^ Z.of_nat (String.length s) + v).
Proof.
  induction fuel as [|fuel IH]; intros v acc Hv.
  - change (10 ^ Z.of_nat 1) with 10 in Hv.
    exists (String (digit (v mod 10)) EmptyString).
    rewrite digits_S. rewrite Z.div_small by lia. cbn [Z.eqb].
    split; [reflexivity|]. cbn [String.length dec_value].
    split; [lia|]. split; [intros; lia|].
    intros a. rewrite digit_value by (apply Z.mod_pos_bound; lia).
    rewrite Z.mod_small by lia. change (10 ^ Z.of_nat 1) with 10. lia.
  - rewrite digits_S.
    destruct (Z.eqb_spec (v / 10) 0) as [E|E].
    + exists (String (digit (v mod 10)) EmptyString).
      assert (v < 10) by (apply Z.div_small_iff in E; lia).
      split; [reflexivity|]. cbn [String.length dec_value].
      split; [lia|]. split; [intros; lia|].
      intros a. rewrite digit_value by (apply Z.mod_pos_bound; lia).
      rewrite Z.mod_small by lia. change (10 ^ Z.of_nat 1) with 10. lia.
    + assert (Hq : 0 <= v / 10 < 10 ^ Z.of_nat (S fuel)).
      { split; [apply Z.div_pos; lia|].
        apply Z.div_lt_upper_bound; [lia|].
        rewrite <- Z.pow_succ_r by lia.
        replace (Z.succ (Z.of_nat (S fuel))) with (Z.of_nat (S (S fuel))) by lia.
        lia. }
      destruct (IH (v / 10) (String (digit (v mod 10)) acc) Hq)
        as (s & Es & Hlen & Hk & Hval).
      exists (s ++ String (digit (v mod 10)) EmptyString).
      split; [|split; [|split]].
      * rewrite Es, append_assoc. reflexivity.
      * rewrite length_append. cbn [String.length]. lia.
      * intros k Hvk Hk1. rewrite length_append. cbn [String.length].
        destruct k as [|[|k]]; [lia| |].
        { change (10 ^ Z.of_nat 1) with 10 in Hvk.
          rewrite Z.div_small in E by lia. congruence. }
        assert (String.length s <= S k)%nat; [|lia].
        apply Hk; [|lia].
        apply Z.div_lt_upper_bound; [lia|].
        rewrite <- Z.pow_succ_r by lia.
        replace (Z.succ (Z.of_nat (S k))) with (Z.of_nat (S (S k))) by lia.
        exact Hvk.
      * intros a. rewrite dec_value_append, Hval, length_append.
        cbn [String.length dec_value].
        rewrite digit_value by (apply Z.mod_pos_bound; lia).
        replace (Z.of_nat (String.length s + 1))
          with (Z.succ (Z.of_nat (String.length s))) by lia.
        rewrite Z.pow_succ_r by lia.
        pose proof (Z.div_mod v 10 ltac:(lia)). lia.
Qed.

Lemma size_below_10_pow_20 (v : Z) : 0 <= v <= SIZE_MAX -> 0 <= v < 10 ^ 20.
Proof. unfold SIZE_MAX. intros H. split; [lia|]. 
  change (10 ^ 20) with 100000000000000000000. 
  change (2 ^ 64) with 18446744073709551616 in H. lia. Qed.

(** [%zu] prints the decimal numeral of its argument. *)
Lemma dec_spec (v : Z) :
  0 <= v <= SIZE_MAX ->
  dec_value 0 (dec v) = v
  /\ (1 <= String.length (dec v) <= 20)%nat
  /\ (forall k : nat, v < 10 ^ Z.of_nat k -> (1 <= k)%nat ->
                      (String.length (dec v) <= k)%nat).
Proof.
  intros Hv. apply size_below_10_pow_20 in Hv.
  destruct (digits_spec 19 v EmptyString Hv) as (s & Es & Hlen & Hk & Hval).
  assert (E : dec v = s).
  { unfold dec. rewrite Es. clear. induction s; simpl; congruence. }
  rewrite E. split; [rewrite Hval; lia | split; assumption].
Qed.

(** [%8zu]: the numeral, right-aligned in a field of 8 characters; a
    numeral of more than 8 digits takes the room it needs. *)
Lemma fmt_zu_spec (w : nat) (v : Z) :
  fmt_zu w v = spaces (w - String.length (dec v)) ++ dec v
  /\ String.length (fmt_zu w v) = Nat.max w (String.length (dec v)).
Proof.
  unfold fmt_zu. split; [reflexivity|].
  rewrite length_append, length_spaces. lia.
Qed.

Lemma fmt_zu_8_width (v : Z) :
  0 <= v < 10 ^ 8 -> String.length (fmt_zu 8 v) = 8%nat.
Proof.
  intros Hv. destruct (fmt_zu_spec 8 v) as [_ ->].
  assert (Hs : 0 <= v <= SIZE_MAX).
  { unfold SIZE_MAX. change (10 ^ 8) with 100000000 in Hv.
    change (2 ^ 64) with 18446744073709551616. lia. }
  destruct (dec_spec v Hs) as (_ & _ & Hk).
  specialize (Hk 8%nat). change (Z.of_nat 8) with 8 in Hk.
  assert (String.length (dec v) <= 8)%nat by (apply Hk; lia). lia.
Qed.

Lemma digits_length_ge (fuel : nat) :
  forall v acc,
    (String.length acc <= String.length (digits fuel v acc))%nat.
Proof.
  induction fuel as [|fuel IH]; intros v acc; [simpl; lia|].
  rewrite digits_S. destruct (v / 10 =? 0)%Z.
  - cbn [String.length]. lia.
  - specialize (IH (v / 10)%Z (String (digit (v mod 10)) acc)).
    cbn [String.length] in IH. lia.
Qed.

(** A value of at least 10^k has more than k digits. *)
Lemma digits_length_lower (fuel : nat) :
  forall v acc (k : nat),
    (0 <= v < 10 ^ Z.of_nat (S fuel))%Z ->
    (10 ^ Z.of_nat k <= v)%Z ->
    (k + 1 + String.length acc
     <= String.length (digits (S fuel) v acc))%nat.
Proof.
  assert (Hpow : forall (k : nat) v,
             (10 ^ Z.of_nat k <= v)%Z -> (v < 10)%Z -> k = 0%nat).
  { intros k v Hk Hv. destruct k as [|k]; [reflexivity|].
    assert (10 ^ 1 <= 10 ^ Z.of_nat (S k))%Z
      by (apply Z.pow_le_mono_r; lia).
    change (10 ^ 1)%Z with 10%Z in *. lia. }
  induction fuel as [|fuel IH]; intros v acc k Hv Hk.
  - change (10 ^ Z.of_nat 1)%Z with 10%Z in Hv.
    rewrite (Hpow k v Hk) by lia.
    rewrite digits_S. destruct (v / 10 =? 0)%Z; cbn [digits String.length]; lia.
  - rewrite digits_S.
    destruct (Z.eqb_spec (v / 10) 0) as [E|E].
    + assert (v < 10)%Z by (apply Z.div_small_iff in E; lia).
      rewrite (Hpow k v Hk) by lia. cbn [String.length]. lia.
    + destruct k as [|k].
      * pose proof (digits_length_ge (S fuel) (v / 10)%Z
                      (String (digit (v mod 10)) acc)) as Hge.
        cbn [String.length] in Hge. lia.
      * assert (Hq : (0 <= v / 10 < 10 ^ Z.of_nat (S fuel))%Z).
        { split; [apply Z.div_pos; lia|].
          apply Z.div_lt_upper_bound; [lia|].
          rewrite <- Z.pow_succ_r by lia.
          replace (Z.succ (Z.of_nat (S fuel)))
            with (Z.of_nat (S (S fuel))) by lia.
          lia. }
        assert (Hk' : (10 ^ Z.of_nat k <= v / 10)%Z).
        { apply Z.div_le_lower_bound; [lia|].
          rewrite <- Z.pow_succ_r by lia.
          replace (Z.succ (Z.of_nat k)) with (Z.of_nat (S k)) by lia.
          exact Hk. }
        specialize (IH (v / 10)%Z (String (digit (v mod 10)) acc) k Hq Hk').
        cbn [String.length] in IH. lia.
Qed.

Lemma dec_length_lower (v : Z) (k : nat) :
  is_size v -> (10 ^ Z.of_nat k <= v)%Z ->
  (k + 1 <= String.length (dec v))%nat.
Proof.
  intros Hv Hk. apply size_below_10_pow_20 in Hv.
  pose proof (digits_length_lower 19 v EmptyString k Hv Hk) as H.
  cbn [String.length] in H. unfold dec. lia.
Qed.


End Printf.

(** ** The anchor finder *)

Lemma read_halts {A : Type} (a : list A) (idx : Z) : halts (read a idx).
Proof.
  unfold read. destruct (_ && _); [|exact I].
  destruct (nth_error _ _); exact I.
Qed.

(** Inversion of a step of the left extension. *)
Lemma left_extend_S (fuel : nat) (query S : list ascii) (ps pq L : Z) :
  left_extend (Datatypes.S fuel) query S ps pq L
  = if 0 <? pq then
      a <- read query (wrap (pq - 1)) ;;
      b <- read S (wrap (ps - 1)) ;;
      if Ascii.eqb a b
      then left_extend fuel query S (wrap (ps - 1)) (wrap (pq - 1)) (wrap (L + 1))
      else Done (ps, pq, L)
    else Done (ps, pq, L).
Proof. reflexivity. Qed.

(** The left extension moves the cursor back by as many characters as it
    adds to the length. *)
Lemma left_extend_shape (fuel : nat) (query S : list ascii) :
  forall ps pq L ps' pq' L',
    0 <= pq -> 0 <= L -> L + pq < 2 ^ 64 ->
    left_extend fuel query S ps pq L = Done (ps', pq', L') ->
    exists d, 0 <= d <= pq /\ pq' = pq - d /\ L' = L + d.
Proof.
  induction fuel as [|fuel IH]; intros ps pq L ps' pq' L' Hq HL Hb H.
  - discriminate.
  - rewrite left_extend_S in H.
    destruct (Z.ltb_spec 0 pq) as [Hpos|Hpos].
    + destruct (read query (wrap (pq - 1))) as [a| | |]; cbn [bind] in H;
        try discriminate.
      destruct (read S (wrap (ps - 1))) as [b| | |]; cbn [bind] in H;
        try discriminate.
      destruct (Ascii.eqb a b).
      * rewrite (wrap_small (pq - 1)), (wrap_small (L + 1)) in H by lia.
        apply IH in H; try lia.
        destruct H as (d & Hd & -> & ->). exists (d + 1). lia.
      * inversion H; subst. exists 0. lia.
    + inversion H; subst. exists 0. lia.
Qed.

(** With more fuel than the cursor has positions to its left, the left
    extension comes to an end. *)
Lemma left_extend_halts (fuel : nat) (query S : list ascii) :
  forall ps pq L,
    0 <= pq < Z.of_nat fuel -> pq < 2 ^ 64 ->
    halts (left_extend fuel query S ps pq L).
Proof.
  induction fuel as [|fuel IH]; intros ps pq L Hq Hs.
  - lia.
  - rewrite left_extend_S.
    destruct (Z.ltb_spec 0 pq) as [Hpos|Hpos]; [|exact I].
    pose proof (read_halts query (wrap (pq - 1))) as Ra.
    destruct (read query (wrap (pq - 1))) as [a| | |]; cbn [bind];
      try exact Ra.
    pose proof (read_halts S (wrap (ps - 1))) as Rb.
    destruct (read S (wrap (ps - 1))) as [b| | |]; cbn [bind];
      try exact Rb.
    destruct (Ascii.eqb a b); [|exact I].
    rewrite (wrap_small (pq - 1)) by lia. apply IH; lia.
Qed.

(** The values the left extension leaves are [size_t] values. *)
Lemma left_extend_sizes (fuel : nat) (query S : list ascii) :
  forall ps pq L ps' pq' L',
    is_size ps -> is_size pq -> is_size L ->
    left_extend fuel query S ps pq L = Done (ps', pq', L') ->
    is_size ps' /\ is_size pq' /\ is_size L'.
Proof.
  assert (W : forall z, is_size (wrap z)).
  { intros z. pose proof (wrap_range z). unfold is_size, SIZE_MAX. lia. }
  induction fuel as [|fuel IH]; intros ps pq L ps' pq' L' Hs Hq HL H.
  - discriminate.
  - rewrite left_extend_S in H.
    destruct (0 <? pq).
    + destruct (read query (wrap (pq - 1))) as [a| | |]; cbn [bind] in H;
        try discriminate.
      destruct (read S (wrap (ps - 1))) as [b| | |]; cbn [bind] in H;
        try discriminate.
      destruct (Ascii.eqb a b).
      * apply IH in H; auto.
      * inversion H; subst; auto.
    + inversion H; subst; auto.
Qed.

(** When the left extension is entered at the first position of the
    subject with characters of the query still to the left, its condition
    reads [S[SIZE_MAX]]. *)
Lemma left_extend_at_subject_start (fuel : nat) (query S : list ascii)
      (pq L : Z) :
  0 < pq ->
  Z.of_nat (List.length S) <= SIZE_MAX ->
  wrap (0 - 1) = SIZE_MAX
  /\ read S (wrap (0 - 1)) = OutOfBounds
  /\ (forall a, read query (wrap (pq - 1)) = Done a ->
                left_extend (Datatypes.S fuel) query S 0 pq L = OutOfBounds).
Proof.
  intros Hq Hlen.
  assert (E : wrap (0 - 1) = SIZE_MAX) by reflexivity.
  assert (R : read S (wrap (0 - 1)) = OutOfBounds).
  { rewrite E. unfold read.
    destruct (Z.ltb_spec SIZE_MAX (Z.of_nat (List.length S))); [lia|].
    rewrite andb_false_r. reflexivity. }
  split; [exact E | split; [exact R|]].
  intros a Ha. rewrite left_extend_S.
  destruct (Z.ltb_spec 0 pq); [|lia].
  rewrite Ha. cbn [bind]. rewrite R. reflexivity.
Qed.

Lemma wrap_is_size (z : Z) : is_size (wrap z).
Proof. pose proof (wrap_range z). unfold is_size, SIZE_MAX. lia. Qed.

Lemma wrap_succ (z : Z) : 0 <= z < SIZE_MAX -> wrap (z + 1) = z + 1.
Proof. unfold SIZE_MAX. intros H. apply wrap_small. lia. Qed.

Section AnchorFinderProperties.

Variable pow : float -> float -> float.
Variable get_match_cached : esa_s -> list ascii -> Z -> lcp_inter_t.

Local Abbreviation lookup := (lookup get_match_cached).
Local Abbreviation extended := (extended get_match_cached).
Local Abbreviation anchor_step := (anchor_step get_match_cached).
Local Abbreviation anchor_loop := (anchor_loop get_match_cached).
Local Abbreviation threshold_of := (threshold_of pow).
Local Abbreviation dist_anchor := (dist_anchor pow get_match_cached).

Lemma initial_length_is_size (inter : lcp_inter_t) :
  is_size (initial_length inter).
Proof.
  unfold initial_length. destruct (lcp_l inter <=? 0).
  - unfold is_size, SIZE_MAX. lia.
  - apply wrap_is_size.
Qed.

Lemma initial_length_signed (inter : lcp_inter_t) :
  lcp_l inter < 2 ^ 63 ->
  initial_length inter = Z.max 0 (lcp_l inter)
  /\ 0 <= initial_length inter < 2 ^ 63.
Proof.
  unfold initial_length. intros H.
  assert (E63 : 2 ^ 63 = 9223372036854775808) by reflexivity.
  destruct (Z.leb_spec (lcp_l inter) 0).
  - lia.
  - rewrite wrap_small by (rewrite two_pow_64; lia). lia.
Qed.

Lemma anchor_step_inv (C : esa_s) (query : list ascii) (m thr q : Z)
      (out : list string) (q' : Z) :
  anchor_step C query m thr q = Done (out, q') ->
  exists pos_S pos_Q L,
    extended C query m q = Done (pos_S, pos_Q, L)
    /\ out = (if (lcp_i (lookup C query m q) =? lcp_j (lookup C query m q))
                 && (thr <=? L)
              then [match_line (wrap (pos_S + 1)) (wrap (pos_Q + 1)) L]
              else [])
    /\ q' = wrap (pos_Q + wrap (L + 1)).
Proof.
  unfold anchor_step. intros H.
  destruct (extended C query m q) as [[[ps pq] L]| | |]; cbn [bind] in H;
    try discriminate.
  inversion H; subst. exists ps, pq, L. repeat split; reflexivity.
Qed.

Lemma extended_sizes (C : esa_s) (query : list ascii) (m q : Z)
      (pos_S pos_Q L : Z) :
  is_size q ->
  extended C query m q = Done (pos_S, pos_Q, L) ->
  is_size pos_S /\ is_size pos_Q /\ is_size L.
Proof.
  unfold extended. intros Hq H.
  destruct (read (esa_SA C) (lcp_i (lookup C query m q))) as [sa| | |];
    cbn [bind] in H; try discriminate.
  eapply left_extend_sizes; [| | | exact H].
  - apply wrap_is_size.
  - exact Hq.
  - apply initial_length_is_size.
Qed.

Lemma anchor_loop_eq (fuel : nat) (C : esa_s) (query : list ascii)
      (m thr q : Z) :
  anchor_loop fuel C query m thr q
  = if q <? m then
      match fuel with
      | O => OutOfFuel
      | S f =>
          r <- anchor_step C query m thr q ;;
          rest <- anchor_loop f C query m thr (snd r) ;;
          Done (fst r ++ rest)
      end
    else Done [].
Proof. destruct fuel; reflexivity. Qed.

Section Progress.

Variables (C : esa_s) (query : list ascii) (m thr : Z).

(** The query length is at most 2^63 ([main] admits no sequence longer
    than [(INT_MAX - 1) / 2]), and the length field of an interval is a
    signed integer of 64 bits at most. *)
Hypothesis m_range : 0 <= m <= 2 ^ 63.
Hypothesis lookup_signed :
  forall q, 0 <= q < m -> lcp_l (lookup C query m q) < 2 ^ 63.

Lemma anchor_step_advance (q : Z) (out : list string) (q' : Z) :
  0 <= q < m ->
  anchor_step C query m thr q = Done (out, q') ->
  q' = q + initial_length (lookup C query m q) + 1 /\ q < q'.
Proof.
  intros Hq H.
  destruct (anchor_step_inv _ _ _ _ _ _ _ H) as (ps & pq & L & E & _ & ->).
  destruct (initial_length_signed _ (lookup_signed q Hq)) as [_ HL0].
  unfold extended in E.
  destruct (read (esa_SA C) (lcp_i (lookup C query m q))) as [sa| | |];
    cbn [bind] in E; try discriminate.
  assert (E63 : 2 ^ 63 = 9223372036854775808) by reflexivity.
  pose proof two_pow_64 as E64.
  apply left_extend_shape in E; try lia.
  destruct E as (d & Hd & -> & ->).
  rewrite (wrap_small (_ + d + 1)) by lia.
  rewrite wrap_small by lia. lia.
Qed.

Lemma anchor_step_halts (q : Z) :
  0 <= q < m -> halts (anchor_step C query m thr q).
Proof.
  intros Hq. unfold anchor_step.
  assert (Hx : halts (extended C query m q)).
  { unfold extended.
    pose proof (read_halts (esa_SA C) (lcp_i (lookup C query m q))) as R.
    destruct (read (esa_SA C) (lcp_i (lookup C query m q))) as [sa| | |];
      cbn [bind]; try exact R.
    assert (E63 : 2 ^ 63 = 9223372036854775808) by reflexivity.
    pose proof two_pow_64 as E64.
    apply left_extend_halts; lia. }
  destruct (extended C query m q) as [[[ps pq] L]| | |]; cbn [bind];
    exact Hx.
Qed.

Lemma anchor_loop_halts (fuel : nat) :
  forall q, 0 <= q -> m - q <= Z.of_nat fuel ->
            halts (anchor_loop fuel C query m thr q).
Proof.
  induction fuel as [|fuel IH]; intros q Hq Hf; rewrite anchor_loop_eq;
    destruct (Z.ltb_spec q m) as [Hlt|Hge]; try exact I; try lia.
  pose proof (anchor_step_halts q ltac:(lia)) as Hs.
  destruct (anchor_step C query m thr q) as [[out q']| | |] eqn:E;
    cbn [bind]; try exact Hs.
  destruct (anchor_step_advance q out q' ltac:(lia) E) as [_ Hadv].
  cbn [snd fst].
  specialize (IH q' ltac:(lia) ltac:(lia)).
  destruct (anchor_loop fuel C query m thr q'); cbn [bind]; exact IH.
Qed.

End Progress.

(** C3. The main loop terminates. An iteration that starts at the cursor
    q leaves it at q plus the length of the match found at q plus one:
    what the left extension takes from the cursor it adds to the length.
    The cursor therefore grows by at least one in each iteration, and a
    query of length m takes at most m of them: with fuel for m iterations
    the loop returns, unless it reads outside the subject on its way. *)
Theorem dist_anchor_loop_terminates (C : esa_s) (query : list ascii)
        (m thr : Z) :
  0 <= m <= 2 ^ 63 ->
  (forall q, 0 <= q < m -> lcp_l (lookup C query m q) < 2 ^ 63) ->
  (forall q out q',
      0 <= q < m ->
      anchor_step C query m thr q = Done (out, q') ->
      q' = q + Z.max 0 (lcp_l (lookup C query m q)) + 1 /\ q + 1 <= q')
  /\ (forall fuel : nat,
         (Z.to_nat m <= fuel)%nat ->
         (exists lines, anchor_loop fuel C query m thr 0 = Done lines)
         \/ anchor_loop fuel C query m thr 0 = OutOfBounds).
Proof.
  intros Hm Hint. split.
  - intros q out q' Hq H.
    destruct (anchor_step_advance C query m thr Hm Hint q out q' Hq H)
      as [-> _].
    destruct (initial_length_signed _ (Hint q Hq)) as [-> _]. lia.
  - intros fuel Hf.
    pose proof (anchor_loop_halts C query m thr Hm Hint fuel 0
                  ltac:(lia) ltac:(lia)) as H.
    destruct (anchor_loop fuel C query m thr 0) as [lines| | |];
      cbn in H; try contradiction; eauto.
Qed.

(** What the main loop returns is what its iterations print. *)
Lemma anchor_loop_iterations (fuel : nat) (C : esa_s) (query : list ascii)
      (m thr : Z) :
  forall q lines,
    anchor_loop fuel C query m thr q = Done lines ->
    iterations get_match_cached C query m thr q lines.
Proof.
  induction fuel as [|fuel IH]; intros q lines H; rewrite anchor_loop_eq in H;
    destruct (Z.ltb_spec q m) as [Hlt|Hge]; try discriminate;
    try (inversion H; subst; constructor; assumption).
  destruct (anchor_step C query m thr q) as [[out q']| | |] eqn:E;
    cbn [bind snd fst] in H; try discriminate.
  destruct (anchor_loop fuel C query m thr q') as [rest| | |] eqn:E';
    cbn [bind] in H; try discriminate.
  inversion H; subst.
  eapply iterations_step; eauto.
Qed.

(** A line is the three fields two spaces apart; a field is the decimal
    numeral of its value behind the spaces that fill it up to 8
    characters, and it is 8 characters wide exactly when the value is
    below 10^8. *)
Lemma match_line_fields (a b c : Z) :
  is_size a -> is_size b -> is_size c ->
  match_line a b c
  = String.append (fmt_zu 8 a)
      (String.append "  " (String.append (fmt_zu 8 b)
         (String.append "  " (String.append (fmt_zu 8 c) newline))))
  /\ Forall (fun v =>
               is_size v
               /\ fmt_zu 8 v
                  = String.append (spaces (8 - String.length (dec v))) (dec v)
               /\ dec_value 0 (dec v) = v
               /\ String.length (fmt_zu 8 v)
                  = Nat.max 8 (String.length (dec v))
               /\ (String.length (fmt_zu 8 v) = 8%nat <-> v < 10 ^ 8))
            [a; b; c].
Proof.
  assert (Hfmt : forall v, is_size v ->
              is_size v
              /\ fmt_zu 8 v
                 = String.append (spaces (8 - String.length (dec v))) (dec v)
              /\ dec_value 0 (dec v) = v
              /\ String.length (fmt_zu 8 v)
                 = Nat.max 8 (String.length (dec v))
              /\ (String.length (fmt_zu 8 v) = 8%nat <-> v < 10 ^ 8)).
  { intros v Hv. split; [exact Hv|].
    split; [apply fmt_zu_spec|]. split; [apply dec_spec, Hv|].
    split; [apply fmt_zu_spec|]. split.
    - intros Hw. destruct (Z.lt_ge_cases v (10 ^ 8)) as [|Hge]; [assumption|].
      pose proof (dec_length_lower v 8 Hv Hge) as Hl.
      destruct (fmt_zu_spec 8 v) as [_ E]. rewrite E in Hw. lia.
    - intros Hlt. apply fmt_zu_8_width. unfold is_size in Hv. lia. }
  intros Ha Hb Hc. split; [reflexivity|].
  repeat constructor; apply Hfmt; assumption.
Qed.

(** The iterations of the main loop are those of [emits], and the
    values they print are [size_t] values. *)
Lemma anchor_loop_emits (fuel : nat) (C : esa_s) (query : list ascii)
      (m thr : Z) :
  forall q lines,
    is_size q ->
    anchor_loop fuel C query m thr q = Done lines ->
    emits get_match_cached C query m thr q lines
    /\ Forall (fun line => exists a b c,
                   line = match_line a b c
                   /\ is_size a /\ is_size b /\ is_size c) lines.
Proof.
  induction fuel as [|fuel IH]; intros q lines Hq H;
    rewrite anchor_loop_eq in H;
    destruct (Z.ltb_spec q m) as [Hlt|Hge]; try discriminate;
    try (inversion H; subst; split; constructor; assumption).
  destruct (anchor_step C query m thr q) as [[out q']| | |] eqn:E;
    cbn [bind snd fst] in H; try discriminate.
  destruct (anchor_loop fuel C query m thr q') as [rest| | |] eqn:E';
    cbn [bind] in H; try discriminate.
  inversion H; subst lines.
  destruct (anchor_step_inv _ _ _ _ _ _ _ E) as (ps & pq & L & Ex & Hout & Hq').
  destruct (extended_sizes _ _ _ _ _ _ _ Hq Ex) as (Hps & Hpq & HL).
  subst q'.
  destruct (IH _ rest (wrap_is_size _) E') as [Hem Hall].
  destruct (Z.eqb_spec (lcp_i (lookup C query m q))
                       (lcp_j (lookup C query m q))) as [Eij|Nij];
    cbn [andb] in Hout.
  - destruct (Z.leb_spec thr L) as [Hthr|Hthr]; subst out; cbn [app].
    + split.
      * eapply emits_line; eassumption.
      * constructor; [|exact Hall].
        exists (wrap (ps + 1)), (wrap (pq + 1)), L.
        repeat split; try apply wrap_is_size; apply HL.
    + split; [|exact Hall].
      eapply emits_nothing; try eassumption. right. exact Hthr.
  - subst out. cbn [app]. split; [|exact Hall].
    eapply emits_nothing; try eassumption. left. exact Nij.
Qed.

(** The iterations print one list of lines. *)
Lemma emits_deterministic (C : esa_s) (query : list ascii) (m thr q : Z)
      (lines lines' : list string) :
  emits get_match_cached C query m thr q lines ->
  emits get_match_cached C query m thr q lines' ->
  lines = lines'.
Proof.
  intros H. revert lines'.
  induction H as [q Hq
                 | q ps pq L rest Hq E Hij HL _ IH
                 | q ps pq L rest Hq E Hc _ IH];
    intros lines' H'; inversion H'; subst; try lia;
    try reflexivity;
    match goal with
    | Hb : _ = Done (_, _, _) |- _ =>
        rewrite E in Hb; inversion Hb; subst; clear Hb
    end.
  - f_equal. apply IH. assumption.
  - exfalso. match goal with Hn : _ \/ _ |- _ => destruct Hn end;
      [contradiction | lia].
  - exfalso. destruct Hc; [contradiction | lia].
  - apply IH. assumption.
Qed.

(** C1, as the code has it. What a call of [dist_anchor] prints is what
    its iterations print, followed by the closing line if there is one.
    An iteration prints a line exactly when the interval of the lookup
    is a singleton and the left-extended length L reaches the threshold,
    and nothing otherwise, whatever the length, so the lines are
    determined; the line holds
    pos_S + 1, pos_Q + 1 and L as decimal numerals, each right-aligned in
    a field of at least 8 characters (of 8 exactly when the value is
    below 10^8), the fields two spaces apart. *)
Theorem dist_anchor_emit (fuel : nat) (G : globals) (C : esa_s)
        (query : list ascii) (m : Z) (gc : float) (lines : list string) :
  dist_anchor fuel G C query m gc = Done lines ->
  exists thr body,
    threshold_of fuel G C gc = Done thr
    /\ lines = body ++ identical_note 0 0 m
    /\ emits get_match_cached C query m thr 0 body
    /\ (forall body', emits get_match_cached C query m thr 0 body' ->
                      body' = body)
    /\ Forall (fun line =>
                 exists a b c,
                   line
                   = String.append (fmt_zu 8 a)
                       (String.append "  " (String.append (fmt_zu 8 b)
                          (String.append "  "
                             (String.append (fmt_zu 8 c) newline))))
                   /\ Forall (fun v =>
                                is_size v
                                /\ fmt_zu 8 v
                                   = String.append
                                       (spaces (8 - String.length (dec v)))
                                       (dec v)
                                /\ dec_value 0 (dec v) = v
                                /\ String.length (fmt_zu 8 v)
                                   = Nat.max 8 (String.length (dec v))
                                /\ (String.length (fmt_zu 8 v) = 8%nat
                                    <-> v < 10 ^ 8))
                             [a; b; c]) body.
Proof.
  intros H. unfold dist_anchor in H.
  destruct (threshold_of fuel G C gc) as [thr| | |]; cbn [bind] in H;
    try discriminate.
  destruct (anchor_loop fuel C query m thr 0) as [body| | |] eqn:E;
    cbn [bind] in H; try discriminate.
  inversion H; subst lines. exists thr, body.
  assert (H0 : is_size 0) by (unfold is_size, SIZE_MAX; lia).
  destruct (anchor_loop_emits fuel C query m thr 0 body H0 E) as [Hem Hall].
  split; [reflexivity|]. split; [reflexivity|]. split; [exact Hem|].
  split; [intros body' Hem'; exact (emits_deterministic _ _ _ _ _ _ _ Hem' Hem)|].
  eapply Forall_impl; [|exact Hall].
  intros line (a & b & c & -> & Ha & Hb & Hc).
  exists a, b, c. apply match_line_fields; assumption.
Qed.

(** C9. For a query of positive length the closing branch of
    [dist_anchor] prints nothing: [last_length] is 0 throughout, so
    [last_length >= query_length] holds for the empty query only, and
    the lines of a run are those of the main loop. *)
Theorem dist_anchor_identical_note (fuel : nat) (G : globals) (C : esa_s)
        (query : list ascii) (m : Z) (gc : float) :
  is_size m ->
  (identical_note 0 0 m <> [] <-> m = 0)
  /\ (0 < m ->
      identical_note 0 0 m = []
      /\ dist_anchor fuel G C query m gc
         = (threshold <- threshold_of fuel G C gc ;;
            anchor_loop fuel C query m threshold 0)).
Proof.
  unfold is_size. intros Hm. unfold identical_note. split.
  - destruct (Z.geb_spec 0 m); split; try discriminate; try lia.
    intros N. exfalso. apply N. reflexivity.
  - intros Hpos. destruct (Z.geb_spec 0 m); [lia|].
    split; [reflexivity|]. unfold dist_anchor.
    unfold identical_note. destruct (Z.geb_spec 0 m); [lia|].
    destruct (threshold_of fuel G C gc) as [t| | |]; cbn [bind]; try reflexivity.
    destruct (anchor_loop fuel C query m t 0) as [o| | |]; cbn [bind];
      try reflexivity.
    rewrite app_nil_r. reflexivity.
Qed.

End AnchorFinderProperties.

(** ** The threshold of a run *)

Section RunProperties.

Variables F_FORWARD F_REVCOMP : Z.
Variable pow : float -> float -> float.
Variable get_match_cached : esa_s -> list ascii -> Z -> lcp_inter_t.
Variable esa_init : seq_t -> option esa_s.
Variable revcomp : list ascii -> Z -> list ascii.

Local Abbreviation threshold_of := (threshold_of pow).
Local Abbreviation dist_anchor := (dist_anchor pow get_match_cached).
Local Abbreviation anchor_lines := (anchor_lines get_match_cached).
Local Abbreviation run_query :=
  (run_query F_FORWARD F_REVCOMP pow get_match_cached revcomp).
Local Abbreviation run_queries :=
  (run_queries F_FORWARD F_REVCOMP pow get_match_cached revcomp).
Local Abbreviation run :=
  (run F_FORWARD F_REVCOMP pow get_match_cached esa_init revcomp).
Local Abbreviation query_at_threshold :=
  (query_at_threshold F_FORWARD F_REVCOMP get_match_cached revcomp).
Local Abbreviation run_at_threshold :=
  (run_at_threshold F_FORWARD F_REVCOMP get_match_cached revcomp).

(** The threshold of a call, in the three cases of [MIN_LENGTH]. *)
Lemma threshold_of_cases (fuel : nat) (G : globals) (C : esa_s)
      (gc : float) (tau : Z) :
  threshold_of fuel G C gc = Done tau ->
  (MIN_LENGTH G <> 0 -> tau = wrap (MIN_LENGTH G))
  /\ (0 < MIN_LENGTH G <= INT_MAX -> tau = MIN_LENGTH G)
  /\ (MIN_LENGTH G = 0 ->
      minAnchorLength pow fuel (RANDOM_ANCHOR_PROP G) gc (wrap (esa_len C))
      = Done tau).
Proof.
  unfold threshold_of.
  destruct (Z.eqb_spec (MIN_LENGTH G) 0) as [E|N]; cbn [negb]; intros H.
  - split; [contradiction|]. split; [lia|]. intros _. exact H.
  - inversion H. split; [reflexivity|]. split; [|contradiction].
    unfold INT_MAX. intros Hr. apply wrap_small. rewrite two_pow_64. lia.
Qed.

(** A call whose threshold is [tau] prints the lines of [anchor_lines]. *)
Lemma dist_anchor_at (fuel : nat) (G : globals) (C : esa_s)
      (query : list ascii) (m : Z) (gc : float) (tau : Z) :
  threshold_of fuel G C gc = Done tau ->
  dist_anchor fuel G C query m gc = anchor_lines fuel C query m tau.
Proof.
  intros H. unfold dist_anchor, anchor_lines. rewrite H. reflexivity.
Qed.

Lemma dist_anchor_Done_threshold (fuel : nat) (G : globals) (C : esa_s)
      (query : list ascii) (m : Z) (gc : float) (lines : list string) :
  dist_anchor fuel G C query m gc = Done lines ->
  exists tau, threshold_of fuel G C gc = Done tau.
Proof.
  unfold dist_anchor.
  destruct (threshold_of fuel G C gc) as [tau| | |]; cbn [bind];
    try discriminate.
  intros _. exists tau. reflexivity.
Qed.

(** Both calls for a query are made with the GC content of the subject,
    and so with its threshold. *)
Lemma run_query_at (fuel : nat) (G : globals) (E : esa_s)
      (subject query : seq_t) (tau : Z) :
  threshold_of fuel G E (seq_gc subject) = Done tau ->
  run_query fuel G E subject query
  = query_at_threshold fuel (FLAGS G) E tau query.
Proof.
  intros H. unfold run_query, query_at_threshold.
  rewrite !(dist_anchor_at _ _ _ _ _ _ _ H). reflexivity.
Qed.

Lemma run_queries_at (fuel : nat) (G : globals) (E : esa_s)
      (subject : seq_t) (tau : Z) (queries : list seq_t) :
  threshold_of fuel G E (seq_gc subject) = Done tau ->
  run_queries fuel G E subject queries
  = run_at_threshold fuel (FLAGS G) E tau queries.
Proof.
  intros H. induction queries as [|query queries IH]; [reflexivity|].
  cbn [run_queries run_at_threshold].
  rewrite (run_query_at _ _ _ _ query _ H), IH. reflexivity.
Qed.

(** A query for which a pass is made has a call of [dist_anchor], and
    with it a threshold. *)
Lemma run_query_Done_threshold (fuel : nat) (G : globals) (E : esa_s)
      (subject query : seq_t) (out : list string) :
  flag_set (FLAGS G) F_FORWARD || flag_set (FLAGS G) F_REVCOMP = true ->
  run_query fuel G E subject query = Done out ->
  exists tau, threshold_of fuel G E (seq_gc subject) = Done tau.
Proof.
  unfold run_query. intros Hf H.
  destruct (flag_set (FLAGS G) F_FORWARD).
  - destruct (dist_anchor fuel G E (seq_S query) (seq_len query)
                          (seq_gc subject)) as [lines| | |] eqn:D;
      cbn [bind] in H; try discriminate.
    exact (dist_anchor_Done_threshold _ _ _ _ _ _ _ D).
  - cbn [orb] in Hf. rewrite Hf in H. cbn [bind] in H.
    destruct (dist_anchor fuel G E (revcomp (seq_S query) (seq_len query))
                          (seq_len query) (seq_gc subject))
      as [lines| | |] eqn:D; cbn [bind] in H; try discriminate.
    exact (dist_anchor_Done_threshold _ _ _ _ _ _ _ D).
Qed.

(** C6, as the code has it. A run with a query and a pass has one
    threshold tau, and what it prints is what the passes over its queries
    print when each call of [dist_anchor] uses tau. tau is [MIN_LENGTH]
    converted to [size_t] when that is not zero, which is [MIN_LENGTH]
    itself when it is positive, and otherwise what [minAnchorLength]
    returns for [RANDOM_ANCHOR_PROP], the GC content of the subject and
    the length [len] of the index built from it. *)
Theorem dist_anchor_threshold (fuel : nat) (G : globals)
        (subject query : seq_t) (queries : list seq_t) (E : esa_s)
        (out : list string) :
  esa_init subject = Some E ->
  flag_set (FLAGS G) F_FORWARD || flag_set (FLAGS G) F_REVCOMP = true ->
  run fuel G (subject :: query :: queries) = Done out ->
  exists tau,
    (MIN_LENGTH G <> 0 -> tau = wrap (MIN_LENGTH G))
    /\ (0 < MIN_LENGTH G <= INT_MAX -> tau = MIN_LENGTH G)
    /\ (MIN_LENGTH G = 0 ->
        minAnchorLength pow fuel (RANDOM_ANCHOR_PROP G) (seq_gc subject)
                        (wrap (esa_len E))
        = Done tau)
    /\ run_at_threshold fuel (FLAGS G) E tau (query :: queries) = Done out.
Proof.
  intros HE Hf H. unfold run in H. rewrite HE in H.
  assert (Ht : exists tau,
             threshold_of fuel G E (seq_gc subject) = Done tau).
  { cbn [run_queries] in H.
    destruct (run_query fuel G E subject query) as [o| | |] eqn:Q;
      cbn [bind] in H; try discriminate.
    exact (run_query_Done_threshold _ _ _ _ _ _ Hf Q). }
  destruct Ht as [tau Ht]. exists tau.
  destruct (threshold_of_cases _ _ _ _ _ Ht) as (H1 & H2 & H3).
  split; [exact H1|]. split; [exact H2|]. split; [exact H3|].
  rewrite <- (run_queries_at _ _ _ _ _ _ Ht). exact H.
Qed.

End RunProperties.

(** ** Input naming *)

Section JoinName.

Local Open Scope string_scope.

Lemma occurs_append (c : ascii) (a b : string) :
  occurs c (a ++ b) <-> occurs c a \/ occurs c b.
Proof.
  unfold occurs. induction a as [|x a IH]; simpl.
  - tauto.
  - rewrite IH. tauto.
Qed.

Lemma strrchr_None (c : ascii) (s : string) :
  strrchr s c = None -> ~ occurs c s.
Proof.
  unfold occurs. induction s as [|x s IH]; simpl; [tauto|].
  destruct (strrchr s c); [discriminate|].
  destruct (Ascii.eqb_spec x c); [discriminate|].
  intros _ [E|E]; [congruence | exact (IH eq_refl E)].
Qed.

Lemma strrchr_Some (c : ascii) (s r : string) :
  strrchr s c = Some r ->
  exists pre t, s = pre ++ String c t /\ r = String c t /\ ~ occurs c t.
Proof.
  revert r. induction s as [|x s IH]; simpl; intros r H; [discriminate|].
  destruct (strrchr s c) as [r'|] eqn:E.
  - inversion H; subst r'.
    destruct (IH r eq_refl) as (pre & t & -> & -> & Hn).
    exists (String x pre), t. repeat split; auto.
  - destruct (Ascii.eqb_spec x c) as [->|]; [|discriminate].
    inversion H; subst r.
    exists "", s. repeat split; auto. apply strrchr_None, E.
Qed.

Lemma strchrnul_spec (c : ascii) (s : string) :
  exists pre,
    s = pre ++ strchrnul s c
    /\ ~ occurs c pre
    /\ (strchrnul s c = "" \/ exists t, strchrnul s c = String c t).
Proof.
  induction s as [|x s IH]; simpl.
  - exists "". unfold occurs. simpl. tauto.
  - destruct (Ascii.eqb_spec x c) as [->|Hne].
    + exists "". unfold occurs. simpl. repeat split; eauto.
    + destruct IH as (pre & E & Hn & Ht).
      exists (String x pre). repeat split; auto.
      * simpl. f_equal. exact E.
      * unfold occurs in *. simpl. intros [F|F]; [congruence | tauto].
Qed.

Lemma strndup_prefix (pre suf : string) :
  strndup (pre ++ suf) (String.length (pre ++ suf) - String.length suf) = pre.
Proof.
  rewrite length_append.
  replace (String.length pre + String.length suf - String.length suf)%nat
    with (String.length pre) by lia.
  induction pre as [|x pre IH]; simpl.
  - destruct suf; reflexivity.
  - f_equal. exact IH.
Qed.

(** C7. In join mode the sequence made from a file is named after the
    file: the name is what follows the last '/' of the path (the whole
    path when it has none) without its extension, the extension being
    what starts at the first '.' of that part. *)
Theorem read_fasta_join_name (file_name : string) :
  (exists dir ext,
      file_name = dir ++ join_name file_name ++ ext
      /\ (dir = "" \/ exists d, dir = d ++ "/")
      /\ (~ occurs "/" file_name -> dir = "")
      /\ ~ occurs "/" (join_name file_name ++ ext)
      /\ ~ occurs "." (join_name file_name)
      /\ (ext = "" \/ exists e, ext = String "." e))
  /\ (forall parse_fasta dsa_join dsa,
         parse_fasta (fasta_source file_name) <> [] ->
         exists joined,
           read_fasta_join parse_fasta dsa_join file_name dsa
           = (dsa ++ [joined])%list
           /\ seq_name joined = join_name file_name
           /\ seq_S joined
              = seq_S (dsa_join (parse_fasta (fasta_source file_name)))).
Proof.
  split.
  - unfold join_name.
    destruct (strrchr file_name "/") as [r|] eqn:E.
    + destruct (strrchr_Some _ _ _ E) as (pre & t & -> & -> & Hn).
      cbn [next].
      destruct (strchrnul_spec "." t) as (name & Et & Hdot & Hext).
      revert Et Hext. generalize (strchrnul t "."). intros ext Et Hext.
      subst t. rewrite strndup_prefix.
      exists (pre ++ "/"), ext.
      split; [|split; [|split; [|split; [|split]]]].
      * rewrite append_assoc. reflexivity.
      * right. exists pre. reflexivity.
      * intros N. exfalso. apply N. apply occurs_append. right.
        unfold occurs. simpl. auto.
      * exact Hn.
      * exact Hdot.
      * exact Hext.
    + destruct (strchrnul_spec "." file_name) as (name & Et & Hdot & Hext).
      apply strrchr_None in E.
      revert Et Hext. generalize (strchrnul file_name "."). intros ext Et Hext.
      subst file_name. rewrite strndup_prefix.
      exists "", ext.
      split; [|split; [|split; [|split; [|split]]]].
      * reflexivity.
      * left. reflexivity.
      * reflexivity.
      * exact E.
      * exact Hdot.
      * exact Hext.
  - intros parse_fasta dsa_join dsa Hne.
    unfold read_fasta_join, read_fasta. cbn [app].
    destruct (parse_fasta (fasta_source file_name)) as [|s0 rest];
      [congruence|].
    cbn [List.length Nat.eqb].
    eexists. repeat split.
Qed.

End JoinName.

(** ** The driver *)

Section DriverProperties.

Variables F_FORWARD F_REVCOMP F_JOIN F_VERBOSE F_EXTRA_VERBOSE : Z.
Variable strtod : string -> option float.
Variable strtoul : string -> option Z.

Local Abbreviation parse_option :=
  (parse_option F_FORWARD F_REVCOMP F_JOIN F_VERBOSE F_EXTRA_VERBOSE
                strtod strtoul).
Local Abbreviation parse_options :=
  (parse_options F_FORWARD F_REVCOMP F_JOIN F_VERBOSE F_EXTRA_VERBOSE
                 strtod strtoul).

Local Abbreviation forward_pass := (forward_pass F_FORWARD).
Local Abbreviation reverse_pass := (reverse_pass F_REVCOMP).

(** The flags are bit masks, and those of the two passes share no bit
    with each other or with the flags the other options set. *)
Hypothesis forward_bit : F_FORWARD <> 0.
Hypothesis reverse_bit : F_REVCOMP <> 0.
Hypothesis forward_reverse : Z.land F_FORWARD F_REVCOMP = 0.
Hypothesis join_forward : Z.land F_JOIN F_FORWARD = 0.
Hypothesis join_reverse : Z.land F_JOIN F_REVCOMP = 0.
Hypothesis verbose_forward : Z.land F_VERBOSE F_FORWARD = 0.
Hypothesis verbose_reverse : Z.land F_VERBOSE F_REVCOMP = 0.
Hypothesis extra_forward : Z.land F_EXTRA_VERBOSE F_FORWARD = 0.
Hypothesis extra_reverse : Z.land F_EXTRA_VERBOSE F_REVCOMP = 0.

Lemma flag_set_lor_same (flags bit : Z) :
  bit <> 0 -> flag_set (Z.lor flags bit) bit = true.
Proof.
  intros H. unfold flag_set.
  rewrite Z.land_lor_distr_l, Z.land_diag.
  destruct (Z.eqb_spec (Z.lor (Z.land flags bit) bit) 0) as [E|]; [|reflexivity].
  apply Z.lor_eq_0_iff in E. tauto.
Qed.

Lemma flag_set_lor_other (flags other bit : Z) :
  Z.land other bit = 0 ->
  flag_set (Z.lor flags other) bit = flag_set flags bit.
Proof.
  intros H. unfold flag_set.
  rewrite Z.land_lor_distr_l, H, Z.lor_0_r. reflexivity.
Qed.

Lemma flag_set_cleared (flags bit : Z) :
  flag_set (Z.land flags (Z.lnot bit)) bit = false.
Proof.
  unfold flag_set.
  rewrite <- Z.land_assoc, (Z.land_comm (Z.lnot bit)), Z.land_lnot_diag,
    Z.land_0_r.
  reflexivity.
Qed.

Lemma parse_option_b (st : main_state) :
  exists st', parse_option st Opt_b = Done st'
              /\ forward_pass st' = true /\ reverse_pass st' = true.
Proof.
  eexists. split; [reflexivity|].
  unfold forward_pass, reverse_pass. cbn.
  split.
  - rewrite (Z.lor_comm F_FORWARD), Z.lor_assoc.
    apply flag_set_lor_same, forward_bit.
  - rewrite Z.lor_assoc. apply flag_set_lor_same, reverse_bit.
Qed.

Lemma parse_option_r (st : main_state) :
  exists st', parse_option st Opt_r = Done st'
              /\ forward_pass st' = false /\ reverse_pass st' = true.
Proof.
  eexists. split; [reflexivity|].
  unfold forward_pass, reverse_pass. cbn.
  split.
  - rewrite flag_set_lor_other by (rewrite Z.land_comm; exact forward_reverse).
    apply flag_set_cleared.
  - apply flag_set_lor_same, reverse_bit.
Qed.

(** An option other than -b and -r leaves the two passes as they are. *)
Lemma parse_option_other (st st' : main_state) (c : getopt_result) :
  c <> Opt_b -> c <> Opt_r ->
  parse_option st c = Done st' ->
  forward_pass st' = forward_pass st /\ reverse_pass st' = reverse_pass st.
Proof.
  intros Hb Hr H. unfold forward_pass, reverse_pass.
  destruct c; cbn in H; try congruence; try discriminate.
  - inversion H; subst. split; reflexivity.
  - inversion H; subst. cbn.
    split; apply flag_set_lor_other; assumption.
  - inversion H; subst. cbn.
    destruct (flag_set (FLAGS (st_globals st)) F_VERBOSE);
      split; apply flag_set_lor_other; assumption.
  - destruct (strtod optarg) as [prop|]; [|inversion H; subst; tauto].
    destruct ((prop <? 0)%float || (1 <? prop)%float);
      inversion H; subst; split; reflexivity.
  - destruct (strtoul optarg) as [n|]; inversion H; subst; split; reflexivity.
Qed.

Lemma parse_options_cons (st : main_state) (c : getopt_result)
      (cs : list getopt_result) :
  parse_options st (c :: cs)
  = (st' <- parse_option st c ;; parse_options st' cs).
Proof. reflexivity. Qed.

Lemma parse_options_other (cs : list getopt_result) :
  forall st st',
    Forall (fun c => c <> Opt_b /\ c <> Opt_r) cs ->
    parse_options st cs = Done st' ->
    forward_pass st' = forward_pass st /\ reverse_pass st' = reverse_pass st.
Proof.
  induction cs as [|c cs IH]; intros st st' Hall H.
  - inversion H; subst. split; reflexivity.
  - inversion Hall as [|? ? [Hb Hr] Hrest]; subst.
    rewrite parse_options_cons in H.
    destruct (parse_option st c) as [st1| | |] eqn:E; cbn [bind] in H;
      try discriminate.
    destruct (parse_option_other _ _ _ Hb Hr E) as [<- <-].
    apply IH; assumption.
Qed.

Lemma parse_options_app (cs1 cs2 : list getopt_result) :
  forall st,
    parse_options st (cs1 ++ cs2)
    = (st1 <- parse_options st cs1 ;; parse_options st1 cs2).
Proof.
  induction cs1 as [|c cs1 IH]; intros st; cbn; [reflexivity|].
  destruct (parse_option st c); cbn [bind]; auto.
Qed.

(** C8. Each -b sets both passes, each -r clears the forward pass and
    sets the reverse-complement pass, and of several the last one
    counts: after a command line whose last such option is -r only the
    reverse pass is enabled, after one whose last is -b both are. *)
Theorem flags_b_r (st st' : main_state) (before after : list getopt_result)
        (c : getopt_result) :
  c = Opt_b \/ c = Opt_r ->
  Forall (fun c' => c' <> Opt_b /\ c' <> Opt_r) after ->
  parse_options st (before ++ c :: after) = Done st' ->
  reverse_pass st' = true
  /\ forward_pass st' = (if c is Opt_b then true else false)
  /\ (forall st0, exists st1,
         parse_option st0 Opt_b = Done st1
         /\ forward_pass st1 = true /\ reverse_pass st1 = true)
  /\ (forall st0, exists st1,
         parse_option st0 Opt_r = Done st1
         /\ forward_pass st1 = false /\ reverse_pass st1 = true).
Proof.
  intros Hc Hafter H.
  rewrite parse_options_app in H.
  destruct (parse_options st before) as [st1| | |]; cbn [bind] in H;
    try discriminate.
  rewrite parse_options_cons in H.
  assert (Hstep : exists st2, parse_option st1 c = Done st2
            /\ reverse_pass st2 = true
            /\ forward_pass st2 = (if c is Opt_b then true else false)).
  { destruct Hc as [-> | ->].
    - destruct (parse_option_b st1) as (st2 & E & F & R). eauto.
    - destruct (parse_option_r st1) as (st2 & E & F & R). eauto. }
  destruct Hstep as (st2 & E & R & F). rewrite E in H. cbn [bind] in H.
  destruct (parse_options_other _ _ _ Hafter H) as [-> ->].
  repeat split; auto using parse_option_b, parse_option_r.
Qed.

End DriverProperties.

(** The sequences [main] hands to [run] are neither empty nor longer
    than [(INT_MAX - 1) / 2]. *)
Lemma validate_lengths (seqs : list seq_t) :
  validate seqs = Done tt ->
  Forall (fun s => 0 <> seq_len s /\ seq_len s <= LENGTH_LIMIT) seqs.
Proof.
  induction seqs as [|s seqs IH]; cbn [validate]; intros H; constructor.
  - destruct (Z.gtb_spec (seq_len s) LENGTH_LIMIT); [discriminate|].
    destruct (Z.eqb_spec (seq_len s) 0); [discriminate|]. lia.
  - destruct (seq_len s >? LENGTH_LIMIT); [discriminate|].
    destruct (seq_len s =? 0); [discriminate|]. auto.
Qed.

(** [-l n] with 0 < n <= INT_MAX leaves n in [MIN_LENGTH]. *)
Lemma to_int_small (n : Z) : 0 <= n <= INT_MAX -> to_int n = n.
Proof.
  unfold to_int, INT_MAX. intros H.
  rewrite Z.mod_small by lia. lia.
Qed.

(** ** The positional arguments *)

Section InputFiles.

Variable F_JOIN : Z.
Variable parse_fasta : source -> list seq_t.
Variable dsa_join : list seq_t -> seq_t.

Local Abbreviation parse_files := (parse_files F_JOIN).
Local Abbreviation call_reader := (call_reader parse_fasta dsa_join).

Lemma parse_files_S (fuel : nat) (flags : Z) (argv : list string)
      (minfiles : Z) :
  parse_files (S fuel) flags argv minfiles
  = match argv with
    | [] =>
        if minfiles <=? 0 then Done []
        else
          rest <- parse_files fuel flags [] (minfiles - 1) ;;
          Done ((if flag_set flags F_JOIN then Read_fasta_join
                 else Read_fasta, "-"%string) :: rest)
    | file_name :: argv' =>
        rest <- parse_files fuel flags argv' (minfiles - 1) ;;
        Done ((if flag_set flags F_JOIN then Read_fasta_join
               else Read_fasta, file_name) :: rest)
    end.
Proof. destruct argv; reflexivity. Qed.

(** With two paths or more nothing is read from the standard input
    unless a path is "-". *)
Lemma parse_files_two_paths (flags : Z) (p1 p2 : string) :
  flag_set flags F_JOIN = true ->
  parse_files 3 flags [p1; p2] 2
  = Done [(Read_fasta_join, p1); (Read_fasta_join, p2)].
Proof.
  intros H. rewrite !parse_files_S, H. reflexivity.
Qed.

(** C10. In join mode with exactly one path the loop over the
    positional arguments makes a second call of [read_fasta_join], for
    the file name "-", and that call reads the standard input. *)
Theorem join_single_path_reads_stdin (flags : Z) (path : string)
        (fuel : nat) :
  flag_set flags F_JOIN = true ->
  (3 <= fuel)%nat ->
  parse_files fuel flags [path] (if flag_set flags F_JOIN then 2 else 1)
  = Done [(Read_fasta_join, path); (Read_fasta_join, "-"%string)]
  /\ fasta_source "-" = Stdin
  /\ (forall dsa,
         call_reader dsa (Read_fasta_join, "-"%string)
         = if (List.length (parse_fasta Stdin) =? 0)%nat then dsa
           else dsa ++ [with_name (dsa_join (parse_fasta Stdin))
                                  (join_name "-")]).
Proof.
  intros H Hf. rewrite H.
  destruct fuel as [|[|[|fuel]]]; try lia.
  split; [|split].
  - rewrite !parse_files_S, H. reflexivity.
  - reflexivity.
  - intros dsa. reflexivity.
Qed.

End InputFiles.

(** ** The definitions at work *)

Example join_name_path : join_name "path/file.ext" = "file"%string.
Proof. reflexivity. Qed.

Example join_name_two_dots : join_name "dir.d/reads.fasta.gz" = "reads"%string.
Proof. reflexivity. Qed.

Example join_name_plain : join_name "genome" = "genome"%string.
Proof. reflexivity. Qed.

Example subject_example_sorted :
  suffixes_sorted (esa_S subject_example) (esa_SA subject_example) = true.
Proof. reflexivity. Qed.

(** A query whose two matches are both unique: one line for each. *)
Example dist_anchor_two_lines :
  dist_anchor pow_int get_match_longest 10 globals_example subject_example
              (list_ascii_of_string "ACGTGCA") 7 0.5%float
  = Done [match_line 1 1 4; match_line 6 4 4].
Proof. vm_compute. reflexivity. Qed.

Lemma minAnchorLength_first_witness :
  minAnchorLength pow_int 10 0.25%float 0.5%float 100 = Done 6.
Proof.
  apply (minAnchorLength_first pow_int 0.25%float 0.5%float 100 5 10).
  - unfold SIZE_MAX; lia.
  - simpl; lia.
  - intros y Hy.
    assert (E : y = 1 \/ y = 2 \/ y = 3 \/ y = 4) by lia.
    destruct E as [-> | [-> | [-> | ->]]]; vm_compute; reflexivity.
  - vm_compute; reflexivity.
Defined.

(** With p = 1 the loop is not entered, whatever [pow] computes. *)
Example minAnchorLength_not_entered (pow : float -> float -> float)
        (fuel : nat) (g : float) (l : Z) :
  minAnchorLength pow (S fuel) 1%float g l = Done 1.
Proof. reflexivity. Qed.

(** C4, as the specification has it, fails at p = 1: the first x >= 1
    with [shuprop (x, g / 2, l) >= 1 - p] is 1, yet the function returns 1
    and not 2, or x + 1 for any other x >= 1. *)
Lemma minAnchorLength_p_one :
  (1 - 1 <=? shuprop pow_int 1 (0.5 / 2) 10000)%float = true
  /\ minAnchorLength pow_int 10 1%float 0.5%float 10000 = Done 1
  /\ (forall x, 1 <= x ->
                minAnchorLength pow_int 10 1%float 0.5%float 10000
                <> Done (x + 1)).
Proof.
  split; [vm_compute; reflexivity|].
  split; [vm_compute; reflexivity|].
  intros x Hx. change (minAnchorLength pow_int 10 1 0.5 10000) with (@Done Z 1).
  intros E. inversion E. lia.
Qed.

Lemma dist_anchor_emit_witness :
  exists thr body,
    threshold_of pow_int 10 globals_example subject_example 0.5%float
    = Done thr
    /\ [match_line 1 1 4; match_line 6 4 4] = body ++ identical_note 0 0 7
    /\ emits get_match_longest subject_example
             (list_ascii_of_string "ACGTGCA") 7 thr 0 body.
Proof.
  assert (H : dist_anchor pow_int get_match_longest 10 globals_example
                subject_example (list_ascii_of_string "ACGTGCA") 7 0.5%float
              = Done [match_line 1 1 4; match_line 6 4 4])
    by (vm_compute; reflexivity).
  destruct (dist_anchor_emit pow_int get_match_longest 10 globals_example
              subject_example (list_ascii_of_string "ACGTGCA") 7 0.5%float
              _ H) as (thr & body & Ht & El & Hem & _ & _).
  exists thr, body. repeat split; assumption.
Defined.

(** C1, as the specification has it, fails for a position of nine
    digits: for the subject [far_subject] and the query ACG the one
    iteration prints the line of (123456790, 1, 3), whose first field
    has 9 characters. *)
Lemma dist_anchor_wide_field :
  dist_anchor pow_int far_lookup 10 globals_example far_subject
              (list_ascii_of_string "ACG") 3 0.5%float
  = Done [match_line 123456790 1 3]
  /\ match_line 123456790 1 3
     = String.append "123456790"
         (String.append "  "
            (String.append "       1"
               (String.append "  " (String.append "       3" newline))))
  /\ fmt_zu 8 123456790 = "123456790"%string
  /\ String.length (fmt_zu 8 123456790) <> 8%nat.
Proof.
  split; [lazy; reflexivity|].
  split; [vm_compute; reflexivity|].
  split; [vm_compute; reflexivity|].
  vm_compute. discriminate.
Qed.

Lemma dist_anchor_loop_terminates_witness :
  (exists lines,
      anchor_loop get_match_longest 7 subject_example
                  (list_ascii_of_string "ACGTGCA") 7 3 0 = Done lines)
  \/ anchor_loop get_match_longest 7 subject_example
                 (list_ascii_of_string "ACGTGCA") 7 3 0 = OutOfBounds.
Proof.
  apply (dist_anchor_loop_terminates get_match_longest subject_example
           (list_ascii_of_string "ACGTGCA") 7 3).
  - lia.
  - intros q Hq.
    assert (E : q = 0 \/ q = 1 \/ q = 2 \/ q = 3 \/ q = 4 \/ q = 5 \/ q = 6)
      by lia.
    destruct E as [-> | [-> | [-> | [-> | [-> | [-> | ->]]]]]];
      vm_compute; reflexivity.
  - simpl; lia.
Defined.

Lemma dist_anchor_threshold_witness :
  exists tau,
    minAnchorLength pow_int 10 0.25%float 0.5%float 10 = Done tau
    /\ run_at_threshold 32 64 get_match_longest reverse_complement 10 96
                        subject_example tau
                        (map sequence_example ["ACGT"; "TGCA"]%string)
       = Done [header "ACGT" false; match_line 1 1 4;
               header "ACGT" true; match_line 1 1 4;
               header "TGCA" false; match_line 6 1 4;
               header "TGCA" true; match_line 6 1 4].
Proof.
  destruct (dist_anchor_threshold 32 64 pow_int get_match_longest
              (fun _ => Some subject_example) reverse_complement 10
              {| FLAGS := 96; RANDOM_ANCHOR_PROP := 0.25%float;
                 MIN_LENGTH := 0 |}
              (sequence_example "ACGT") (sequence_example "ACGT")
              [sequence_example "TGCA"] subject_example
              [header "ACGT" false; match_line 1 1 4;
               header "ACGT" true; match_line 1 1 4;
               header "TGCA" false; match_line 6 1 4;
               header "TGCA" true; match_line 6 1 4])
    as (tau & _ & _ & Hm & Hrun).
  - reflexivity.
  - vm_compute. reflexivity.
  - vm_compute. reflexivity.
  - exists tau. split; [apply Hm; reflexivity | exact Hrun].
Defined.

(** C6, as the specification has it, fails for a negative [MIN_LENGTH],
    which [-l] leaves for a number such as 2^64 - 1: the threshold is not
    -1 but [SIZE_MAX], and the run prints no match, where the passes at
    the threshold -1 print four. *)
Lemma dist_anchor_threshold_negative :
  to_int (wrap (-1)) = -1
  /\ threshold_of pow_int 10
                  {| FLAGS := 96; RANDOM_ANCHOR_PROP := 0.25%float;
                     MIN_LENGTH := -1 |}
                  subject_example 0.5%float
     = Done SIZE_MAX
  /\ SIZE_MAX <> -1
  /\ run 32 64 pow_int get_match_longest (fun _ => Some subject_example)
         reverse_complement 10
         {| FLAGS := 96; RANDOM_ANCHOR_PROP := 0.25%float;
            MIN_LENGTH := -1 |}
         sequences_example
     = Done [header "ACGT" false; header "ACGT" true;
             header "TGCA" false; header "TGCA" true]
  /\ run_at_threshold 32 64 get_match_longest reverse_complement 10 96
                      subject_example (-1)
                      (map sequence_example ["ACGT"; "TGCA"]%string)
     = Done [header "ACGT" false; match_line 1 1 4;
             header "ACGT" true; match_line 1 1 4;
             header "TGCA" false; match_line 6 1 4;
             header "TGCA" true; match_line 6 1 4].
Proof.
  split; [reflexivity|].
  split; [reflexivity|].
  split; [unfold SIZE_MAX; lia|].
  split; vm_compute; reflexivity.
Qed.

Lemma dist_anchor_identical_note_witness :
  identical_note 0 0 7 = [].
Proof.
  apply (dist_anchor_identical_note pow_int get_match_longest 10
           globals_example subject_example
           (list_ascii_of_string "ACGTGCA") 7 0.5%float).
  - unfold is_size, SIZE_MAX; lia.
  - lia.
Defined.

Lemma flags_b_r_witness :
  let st' := {| st_globals := {| FLAGS := 30;
                                 RANDOM_ANCHOR_PROP := 0x1.999999999999ap-5;
                                 MIN_LENGTH := 12 |};
                version_flag := false |} in
  parse_options 1 2 4 8 16 (fun _ => None) (fun _ => Some 12)
                (initial_state 1)
                [Opt_r; Opt_j; Opt_b; Opt_v; Opt_r; Opt_l "12"; Opt_v]
  = Done st'
  /\ reverse_pass 2 st' = true /\ forward_pass 1 st' = false.
Proof.
  intros st'.
  assert (H : parse_options 1 2 4 8 16 (fun _ => None) (fun _ => Some 12)
                (initial_state 1)
                ([Opt_r; Opt_j; Opt_b; Opt_v] ++ Opt_r :: [Opt_l "12"; Opt_v])
              = Done st') by (vm_compute; reflexivity).
  split; [exact H|].
  destruct (flags_b_r 1 2 4 8 16 (fun _ => None) (fun _ => Some 12)
           ltac:(discriminate) ltac:(discriminate)
           ltac:(reflexivity) ltac:(reflexivity) ltac:(reflexivity)
           ltac:(reflexivity) ltac:(reflexivity) ltac:(reflexivity)
           ltac:(reflexivity)
           (initial_state 1) st' [Opt_r; Opt_j; Opt_b; Opt_v]
           [Opt_l "12"; Opt_v] Opt_r
           ltac:(right; reflexivity)
           ltac:(repeat constructor; discriminate) H) as (R & F & _).
  split; [exact R | exact F].
Defined.

Lemma join_single_path_reads_stdin_witness :
  parse_files 4 3 4 ["genomes/a.fasta"%string] 2
  = Done [(Read_fasta_join, "genomes/a.fasta"%string);
          (Read_fasta_join, "-"%string)].
Proof.
  apply (join_single_path_reads_stdin 4 (fun _ => [])
           (fun _ => {| seq_S := []; seq_len := 0; seq_name := "";
                        seq_gc := 0%float |})
           4 "genomes/a.fasta"%string 3).
  - reflexivity.
  - lia.
Defined.

(** C2 at work: the subject ACGT#TGCA$ and the query TACGT. The second
    iteration starts at the cursor 2, where CGT matches the subject at 1
    only. The left extension takes the A in front of it, which puts
    [this_pos_S] at 0 with [this_pos_Q] at 1, and its condition then reads
    [S[this_pos_S - 1]], which is [S[SIZE_MAX]]. With the test for
    [pos_S > 0] the extension ends there with the match (0, 1, 4). *)
Theorem left_extension_reads_before_subject :
  let C := subject_example in
  let query := list_ascii_of_string "TACGT" in
  suffixes_sorted (esa_S C) (esa_SA C) = true
  /\ lookup get_match_longest C query 5 2
     = {| lcp_l := 3; lcp_i := 5; lcp_j := 5 |}
  /\ read (esa_SA C) 5 = Done 1
  /\ left_extend 3 query (esa_S C) 1 2 3 = OutOfBounds
  /\ left_extend 2 query (esa_S C) 0 1 4 = OutOfBounds
  /\ wrap (0 - 1) = SIZE_MAX
  /\ read (esa_S C) (wrap (0 - 1)) = OutOfBounds
  /\ left_extend_guarded 3 query (esa_S C) 1 2 3 = Done (0, 1, 4)
  /\ anchor_step get_match_longest C query 5 3 2 = OutOfBounds
  /\ dist_anchor pow_int get_match_longest 10 globals_example C query 5
                 0.5%float = OutOfBounds.
Proof. vm_compute. repeat split. Qed.


(** * Further properties *)

(** ** Random-match statistics *)

Lemma ltb_leb (a b : float) :
  (a <? b)%float = true -> (a <=? b)%float = true.
Proof.
  rewrite leb_spec, ltb_spec. unfold SFleb, SFltb.
  destruct (SFcompare (Prim2SF a) (Prim2SF b)) as [[| |]|]; congruence.
Qed.

Section StatisticsFurther.

Variable pow : float -> float -> float.

Local Open Scope float_scope.

Lemma shuprop_loop_S (cnt : nat) (x : Z) (p : float) (l k : Z) (s : float) :
  shuprop_loop pow (S cnt) x p l k s
  = let s' := s + pow 2 (double_of_size x)
                  * (pow p (double_of_size k)
                     * pow (0.5 - p) (double_of_size x - double_of_size k)
                     * pow (1 - pow p (double_of_size k)
                                * pow (0.5 - p)
                                      (double_of_size x - double_of_size k))
                           (double_of_size l))
                  * double_of_size (binomial_coefficient x k) in
    if 1.0 <=? s' then 1.0 else shuprop_loop pow cnt x p l (k + 1)%Z s'.
Proof. reflexivity. Qed.

(** The sum leaves the loop saturated to 1.0 or not having reached 1.0. *)
Lemma shuprop_loop_saturates (cnt : nat) (x : Z) (p : float) (l : Z) :
  forall k s,
    (1.0 <=? s) = false ->
    shuprop_loop pow cnt x p l k s = 1.0
    \/ (1.0 <=? shuprop_loop pow cnt x p l k s) = false.
Proof.
  induction cnt as [|cnt IH]; intros k s Hs.
  - right. exact Hs.
  - rewrite shuprop_loop_S. cbv zeta.
    match goal with |- context [if ?c then _ else _] => destruct c eqn:E end.
    + left. reflexivity.
    + apply IH. exact E.
Qed.

(** X1. Whatever [pow] computes, [shuprop] never returns a value above 1:
    a sum that reaches 1.0 is replaced by 1.0 at once. *)
Theorem shuprop_at_most_one (x : Z) (p : float) (l : Z) :
  (1.0 <? shuprop pow x p l) = false
  /\ ((1.0 <=? shuprop pow x p l) = true -> shuprop pow x p l = 1.0).
Proof.
  unfold shuprop.
  destruct (shuprop_loop_saturates (Z.to_nat (x + 1)) x p l 0%Z 0.0 eq_refl)
    as [E|E].
  - rewrite E. split; reflexivity.
  - split.
    + destruct (1.0 <? shuprop_loop pow (Z.to_nat (x + 1)) x p l 0 0.0) eqn:F;
        [|reflexivity].
      apply ltb_leb in F. congruence.
    + intros F. congruence.
Qed.

(** The loop entered for the length [x0]: what it returns, it returns
    for the first length from [x0] on whose probability is not below
    [1 - p]. *)
Lemma minAnchorLength_loop_sound (p g : float) (l : Z) (fuel : nat) :
  forall (x0 r : Z),
    (1 <= x0)%Z -> (x0 + Z.of_nat fuel + 1 < 2 ^ 64)%Z ->
    minAnchorLength_loop pow fuel p g l (x0 + 1) (shuprop pow x0 (g / 2) l)
    = Done r ->
    (x0 + 1 <= r)%Z
    /\ (shuprop pow (r - 1) (g / 2) l <? 1 - p) = false
    /\ (forall y, (x0 <= y < r - 1)%Z ->
                  (shuprop pow y (g / 2) l <? 1 - p) = true).
Proof.
  induction fuel as [|fuel IH]; intros x0 r H0 Hb H; [discriminate|].
  rewrite minAnchorLength_loop_S in H.
  destruct (shuprop pow x0 (g / 2) l <? 1 - p) eqn:E.
  - rewrite wrap_small in H by lia.
    apply IH in H; try lia.
    destruct H as (Hr & Hge & Hlt).
    split; [lia|]. split; [exact Hge|].
    intros y Hy. destruct (Z.eq_dec y x0) as [->|]; [exact E|].
    apply Hlt. lia.
  - inversion H; subst r.
    replace (x0 + 1 - 1)%Z with x0 by lia.
    split; [lia|]. split; [exact E|]. intros y Hy. lia.
Qed.

(** X2. What [minAnchorLength] returns is 1 when [1 - p] is not
    positive, and otherwise x + 1 >= 2 for the first length x >= 1 at which
    [shuprop (x, g / 2, l) < 1 - p] does not hold. *)
Theorem minAnchorLength_sound (p g : float) (l : Z) (fuel : nat) (r : Z) :
  (Z.of_nat fuel < SIZE_MAX)%Z ->
  minAnchorLength pow fuel p g l = Done r ->
  ((0 <? 1 - p) = false /\ r = 1%Z)
  \/ ((0 <? 1 - p) = true
      /\ (2 <= r)%Z
      /\ (shuprop pow (r - 1) (g / 2) l <? 1 - p) = false
      /\ (forall y, (1 <= y < r - 1)%Z ->
                    (shuprop pow y (g / 2) l <? 1 - p) = true)).
Proof.
  unfold SIZE_MAX. intros Hf H. unfold minAnchorLength in H.
  destruct fuel as [|fuel]; [discriminate|].
  rewrite minAnchorLength_loop_S in H.
  destruct (0 <? 1 - p) eqn:E.
  - right. change (wrap (1 + 1)) with (1 + 1)%Z in H.
    apply minAnchorLength_loop_sound in H; try lia.
    destruct H as (Hr & Hge & Hlt). repeat split; auto.
  - left. inversion H. split; reflexivity.
Qed.

End StatisticsFurther.

Lemma minAnchorLength_sound_witness :
  (shuprop pow_int (6 - 1) (0.5 / 2) 100 <? 1 - 0.25)%float = false.
Proof.
  assert (H : minAnchorLength pow_int 10 0.25%float 0.5%float 100 = Done 6)
    by (vm_compute; reflexivity).
  destruct (minAnchorLength_sound pow_int 0.25%float 0.5%float 100 10 6
              ltac:(unfold SIZE_MAX; simpl; lia) H)
    as [[E _] | (_ & _ & Hge & _)].
  - vm_compute in E. discriminate E.
  - exact Hge.
Defined.

(** X3. [binomial_coefficient] is exact for every n from 1 to 58: no
    product of the loop exceeds [size_t] there. It is therefore symmetric
    in k on that range. *)
Theorem binomial_coefficient_exact_58 (n k : Z) :
  1 <= n <= 58 -> 0 <= k <= SIZE_MAX ->
  binomial_coefficient n k = Z.of_nat (choose (Z.to_nat n) (Z.to_nat k))
  /\ (k <= n -> binomial_coefficient n (n - k) = binomial_coefficient n k).
Proof.
  assert (Hex : forall n k, 1 <= n <= 58 -> 0 <= k ->
            binomial_coefficient n k
            = Z.of_nat (choose (Z.to_nat n) (Z.to_nat k))).
  { clear n k. intros n k Hn Hk. unfold binomial_coefficient.
    destruct (Z.leb_spec n 0); [lia|].
    destruct (Z.gtb_spec k n); cbn [orb].
    { rewrite choose_gt by lia. reflexivity. }
    destruct (Z.eqb_spec k 0) as [->|Hk0]; cbn [orb].
    { rewrite choose_0_r. reflexivity. }
    destruct (Z.eqb_spec k n) as [->|Hk1].
    { rewrite choose_diag. reflexivity. }
    pose proof two_pow_64 as E64.
    rewrite (wrap_small (n - k)) by lia.
    set (k' := if k >? n - k then n - k else k).
    assert (Hk' : 0 < k' <= n - 1 /\
                  choose (Z.to_nat n) (Z.to_nat k')
                  = choose (Z.to_nat n) (Z.to_nat k)).
    { subst k'. destruct (Z.gtb_spec k (n - k)).
      - split; [lia|].
        rewrite (choose_sym (Z.to_nat n) (Z.to_nat k)) by lia.
        f_equal. lia.
      - split; [lia | reflexivity]. }
    destruct Hk' as [Hr Hs]. rewrite <- Hs.
    pose proof (binomial_loop_exact (Z.to_nat k') (Z.to_nat (n - k')) 0
                  n k' ltac:(lia) ltac:(lia)) as L.
    rewrite Nat.add_0_r, choose_0_r in L.
    change (Z.of_nat 1) with 1 in L. rewrite L.
    f_equal. f_equal; lia. }
  intros Hn Hk. split; [apply Hex; lia|].
  intros Hkn. rewrite !Hex by lia.
  rewrite (choose_sym (Z.to_nat n) (Z.to_nat k)) by lia.
  f_equal. f_equal. lia.
Qed.

Lemma binomial_coefficient_exact_58_witness :
  binomial_coefficient 9 (9 - 4) = binomial_coefficient 9 4.
Proof.
  apply (binomial_coefficient_exact_58 9 4).
  - lia.
  - unfold SIZE_MAX; lia.
  - lia.
Defined.

(** ** The left extension *)

Lemma read_Done_range {A : Type} (a : list A) (idx : Z) (v : A) :
  read a idx = Done v -> 0 <= idx < Z.of_nat (List.length a).
Proof.
  unfold read.
  destruct (Z.leb_spec 0 idx), (Z.ltb_spec idx (Z.of_nat (List.length a)));
    cbn [andb]; try discriminate. lia.
Qed.

Lemma read_in_range {A : Type} (a : list A) (idx : Z) :
  0 <= idx < Z.of_nat (List.length a) -> exists v, read a idx = Done v.
Proof.
  intros H. unfold read.
  destruct (Z.leb_spec 0 idx); [|lia].
  destruct (Z.ltb_spec idx (Z.of_nat (List.length a))); [|lia].
  cbn [andb].
  destruct (nth_error a (Z.to_nat idx)) as [v|] eqn:E; [eauto|].
  apply nth_error_None in E. lia.
Qed.

(** X4. What the left extension returns is a match that cannot be
    extended to the left: it has moved both positions back by the same
    number d of characters, the d characters it took are equal in the
    query and in the subject, and either the query starts at the new
    position or the characters in front of the two positions differ. *)
Theorem left_extend_maximal (fuel : nat) (query S : list ascii) :
  forall ps pq L ps' pq' L',
    is_size ps -> 0 <= pq <= SIZE_MAX ->
    Z.of_nat (List.length S) <= SIZE_MAX ->
    left_extend fuel query S ps pq L = Done (ps', pq', L') ->
    exists d,
      0 <= d <= pq /\ d <= ps /\ ps' = ps - d /\ pq' = pq - d
      /\ (forall j, 0 <= j < d ->
                    exists c, read query (pq' + j) = Done c
                              /\ read S (ps' + j) = Done c)
      /\ (pq' = 0
          \/ exists a b, read query (pq' - 1) = Done a
                         /\ read S (ps' - 1) = Done b /\ a <> b).
Proof.
  unfold is_size, SIZE_MAX. pose proof two_pow_64 as E64.
  induction fuel as [|fuel IH]; intros ps pq L ps' pq' L' Hs Hq Hlen H.
  - discriminate.
  - rewrite left_extend_S in H.
    destruct (Z.ltb_spec 0 pq) as [Hpos|Hpos].
    + rewrite (wrap_small (pq - 1)) in H by lia.
      destruct (read query (pq - 1)) as [a| | |] eqn:Ra; cbn [bind] in H;
        try discriminate.
      destruct (read S (wrap (ps - 1))) as [b| | |] eqn:Rb; cbn [bind] in H;
        try discriminate.
      assert (Hps : 1 <= ps).
      { destruct (Z.eq_dec ps 0) as [->|]; [|lia].
        apply read_Done_range in Rb.
        change (wrap (0 - 1)) with (2 ^ 64 - 1) in Rb. lia. }
      rewrite (wrap_small (ps - 1)) in H, Rb by lia.
      destruct (Ascii.eqb_spec a b) as [->|Hne].
      * apply IH in H; try lia.
        destruct H as (d & Hd & Hds & -> & -> & Hm & Hstop).
        exists (d + 1). do 4 (split; [lia|]). split.
        -- intros j Hj. destruct (Z.eq_dec j d) as [->|].
           ++ exists b.
              replace (pq - 1 - d + d) with (pq - 1) by lia.
              replace (ps - 1 - d + d) with (ps - 1) by lia.
              auto.
           ++ apply Hm. lia.
        -- exact Hstop.
      * inversion H; subst. exists 0.
        do 4 (split; [lia|]). split; [intros j Hj; lia|].
        right. exists a, b. auto.
    + inversion H; subst. exists 0.
      do 4 (split; [lia|]). split; [intros j Hj; lia|].
      left. lia.
Qed.

(** X5. The left extension stays inside both arrays, and returns, when
    the position in the subject is no closer to the start of the subject
    than the cursor is to the start of the query. *)
Theorem left_extend_in_bounds (fuel : nat) (query S : list ascii) :
  forall ps pq L,
    0 <= pq <= ps ->
    ps <= Z.of_nat (List.length S) ->
    pq <= Z.of_nat (List.length query) ->
    ps <= SIZE_MAX ->
    pq < Z.of_nat fuel ->
    exists r, left_extend fuel query S ps pq L = Done r.
Proof.
  unfold SIZE_MAX. pose proof two_pow_64 as E64.
  induction fuel as [|fuel IH]; intros ps pq L Hq Hs Hql Hmax Hf.
  - lia.
  - rewrite left_extend_S.
    destruct (Z.ltb_spec 0 pq) as [Hpos|Hpos]; [|eauto].
    rewrite (wrap_small (pq - 1)), (wrap_small (ps - 1)) by lia.
    destruct (read_in_range query (pq - 1) ltac:(lia)) as [a ->].
    destruct (read_in_range S (ps - 1) ltac:(lia)) as [b ->].
    cbn [bind]. destruct (Ascii.eqb a b); [|eauto].
    apply IH; lia.
Qed.

Lemma left_extend_maximal_witness :
  exists d : Z,
    0 <= d <= 2 /\ d <= 2 /\ 1 = 2 - d /\ 1 = 2 - d
    /\ (forall j, 0 <= j < d ->
                  exists c, read (list_ascii_of_string "GACGT") (1 + j) = Done c
                            /\ read (list_ascii_of_string "TACGT") (1 + j)
                               = Done c)
    /\ (1 = 0
        \/ exists a b, read (list_ascii_of_string "GACGT") (1 - 1) = Done a
                       /\ read (list_ascii_of_string "TACGT") (1 - 1) = Done b
                       /\ a <> b).
Proof.
  apply (left_extend_maximal 3 (list_ascii_of_string "GACGT")
           (list_ascii_of_string "TACGT") 2 2 3 1 1 4).
  - unfold is_size, SIZE_MAX; lia.
  - unfold SIZE_MAX; lia.
  - unfold SIZE_MAX; simpl; lia.
  - vm_compute; reflexivity.
Defined.

Lemma left_extend_in_bounds_witness :
  exists r, left_extend 3 (list_ascii_of_string "GACGT")
                        (list_ascii_of_string "TACGT") 2 2 3 = Done r.
Proof.
  apply (left_extend_in_bounds 3 (list_ascii_of_string "GACGT")
           (list_ascii_of_string "TACGT") 2 2 3).
  - lia.
  - simpl; lia.
  - simpl; lia.
  - unfold SIZE_MAX; lia.
  - simpl; lia.
Defined.

(** ** The lines of a run *)

Section RunLines.

Variable get_match_cached : esa_s -> list ascii -> Z -> lcp_inter_t.
Variables (C : esa_s) (query : list ascii) (m thr : Z).

Hypothesis m_range : 0 <= m <= 2 ^ 63.
Hypothesis lookup_signed :
  forall q, 0 <= q < m ->
            lcp_l (lookup get_match_cached C query m q) < 2 ^ 63.

(** The left extension of an iteration leaves the cursor between the
    start of the query and where the iteration began. *)
Lemma extended_cursor (q pos_S pos_Q L : Z) :
  0 <= q < m ->
  extended get_match_cached C query m q = Done (pos_S, pos_Q, L) ->
  0 <= pos_Q <= q.
Proof.
  intros Hq E. unfold extended in E.
  destruct (read (esa_SA C) (lcp_i (lookup get_match_cached C query m q)))
    as [sa| | |]; cbn [bind] in E; try discriminate.
  destruct (initial_length_signed _ (lookup_signed q Hq)) as [_ HL0].
  assert (E63 : 2 ^ 63 = 9223372036854775808) by reflexivity.
  pose proof two_pow_64 as E64.
  apply left_extend_shape in E; try lia.
  destruct E as (d & Hd & -> & _). lia.
Qed.

Lemma anchor_loop_lines_from (fuel : nat) :
  forall q lines,
    0 <= q ->
    anchor_loop get_match_cached fuel C query m thr q = Done lines ->
    Z.of_nat (List.length lines) <= Z.max 0 (m - q)
    /\ Forall (fun line =>
                 exists pos_S pos_Q L,
                   line = match_line (wrap (pos_S + 1)) (pos_Q + 1) L
                   /\ thr <= L /\ 1 <= pos_Q + 1 <= m) lines.
Proof.
  induction fuel as [|fuel IH]; intros q lines Hq H;
    rewrite anchor_loop_eq in H;
    destruct (Z.ltb_spec q m) as [Hlt|Hge]; try discriminate;
    try (inversion H; subst; split; [simpl; lia | constructor]).
  destruct (anchor_step get_match_cached C query m thr q)
    as [[out q']| | |] eqn:E; cbn [bind snd fst] in H; try discriminate.
  destruct (anchor_loop get_match_cached fuel C query m thr q')
    as [rest| | |] eqn:E'; cbn [bind] in H; try discriminate.
  inversion H; subst lines.
  destruct (anchor_step_advance get_match_cached C query m thr
              m_range lookup_signed q out q' ltac:(lia) E) as [_ Hadv].
  destruct (IH q' rest ltac:(lia) E') as [Hlen Hall].
  destruct (anchor_step_inv _ _ _ _ _ _ _ _ E)
    as (ps & pq & L & Ex & Hout & _).
  pose proof (extended_cursor q ps pq L ltac:(lia) Ex) as Hpq.
  assert (E63 : 2 ^ 63 = 9223372036854775808) by reflexivity.
  pose proof two_pow_64 as E64.
  rewrite (wrap_small (pq + 1)) in Hout by lia.
  destruct ((lcp_i (lookup get_match_cached C query m q)
             =? lcp_j (lookup get_match_cached C query m q))
            && (thr <=? L)) eqn:B; subst out.
  - apply andb_true_iff in B. destruct B as [_ B]. apply Z.leb_le in B.
    split; [cbn [List.length app]; lia|].
    constructor; [|exact Hall].
    exists ps, pq, L. repeat split; try lia.
  - split; [cbn [app]; lia | exact Hall].
Qed.

(** X6. A run of the main loop over a query of length m that returns has
    printed at most m lines, and every one of them is a match line whose
    length is at least the threshold and whose position in the query
    lies between 1 and m. *)
Theorem anchor_loop_lines (fuel : nat) (lines : list string) :
  anchor_loop get_match_cached fuel C query m thr 0 = Done lines ->
  Z.of_nat (List.length lines) <= m
  /\ Forall (fun line =>
               exists pos_S pos_Q L,
                 line = match_line (wrap (pos_S + 1)) (pos_Q + 1) L
                 /\ thr <= L /\ 1 <= pos_Q + 1 <= m) lines.
Proof.
  intros H.
  destruct (anchor_loop_lines_from fuel 0 lines ltac:(lia) H) as [Hlen Hall].
  split; [lia | exact Hall].
Qed.

End RunLines.

Lemma anchor_loop_lines_witness :
  Z.of_nat (List.length [match_line 1 1 4; match_line 6 4 4]) <= 7.
Proof.
  refine (proj1 (anchor_loop_lines get_match_longest subject_example
                   (list_ascii_of_string "ACGTGCA") 7 3 _ _ 7%nat
                   [match_line 1 1 4; match_line 6 4 4] _)).
  - lia.
  - intros q Hq.
    assert (E : q = 0 \/ q = 1 \/ q = 2 \/ q = 3 \/ q = 4 \/ q = 5 \/ q = 6)
      by lia.
    destruct E as [-> | [-> | [-> | [-> | [-> | [-> | ->]]]]]];
      vm_compute; reflexivity.
  - vm_compute. reflexivity.
Defined.

(** ** The positional arguments, in general *)

Section InputFilesFurther.

Variable F_JOIN : Z.

Local Abbreviation parse_files := (parse_files F_JOIN).

(** The reader [main] calls under the flags. *)
Local Abbreviation call_for flags :=
  (fun file_name : string =>
     (if flag_set flags F_JOIN then Read_fasta_join else Read_fasta,
      file_name)).

Lemma parse_files_exhausted (flags : Z) (n : nat) :
  forall (fuel : nat) (minfiles : Z),
    Z.to_nat minfiles = n -> (n < fuel)%nat ->
    parse_files fuel flags [] minfiles
    = Done (map (call_for flags) (repeat "-"%string n)).
Proof.
  induction n as [|n IH]; intros fuel minfiles Hn Hf;
    (destruct fuel as [|fuel]; [lia|]); rewrite parse_files_S.
  - destruct (Z.leb_spec minfiles 0); [reflexivity | lia].
  - destruct (Z.leb_spec minfiles 0); [lia|].
    rewrite (IH fuel (minfiles - 1)) by lia. reflexivity.
Qed.

(** X7. The loop over the positional arguments calls the reader for
    every path in order and then for "-" (the standard input) as many
    times as [minfiles] exceeds the number of paths: once when no path is
    given outside join mode, never when there are two paths or more. *)
Theorem parse_files_calls (flags : Z) (argv : list string) :
  forall (fuel : nat) (minfiles : Z),
    (List.length argv
     + Z.to_nat (minfiles - Z.of_nat (List.length argv)) < fuel)%nat ->
    parse_files fuel flags argv minfiles
    = Done (map (call_for flags)
                (argv ++ repeat "-"%string
                      (Z.to_nat (minfiles - Z.of_nat (List.length argv))))).
Proof.
  induction argv as [|file_name argv IH]; intros fuel minfiles Hf.
  - cbn [List.length app] in *. rewrite Z.sub_0_r in *.
    apply parse_files_exhausted; [reflexivity | lia].
  - destruct fuel as [|fuel]; [cbn [List.length] in Hf; lia|].
    rewrite parse_files_S.
    cbn [List.length] in Hf.
    replace (minfiles - Z.of_nat (List.length (file_name :: argv)))
      with (minfiles - 1 - Z.of_nat (List.length argv))
      in * by (cbn [List.length]; lia).
    rewrite (IH fuel (minfiles - 1)) by lia. reflexivity.
Qed.

End InputFilesFurther.

Lemma parse_files_calls_witness :
  parse_files 16 5 0 [] 1 = Done [(Read_fasta, "-"%string)].
Proof.
  apply (parse_files_calls 16 0 [] 5 1).
  simpl; lia.
Defined.

(** ** The sequences main reads *)

Section ReadersFurther.

Variable parse_fasta : source -> list seq_t.
Variable dsa_join : list seq_t -> seq_t.

Local Abbreviation call_reader := (call_reader parse_fasta dsa_join).

Lemma read_fasta_join_length (file_name : string) (dsa : list seq_t) :
  (List.length (read_fasta_join parse_fasta dsa_join file_name dsa)
   <= List.length dsa + 1)%nat
  /\ (parse_fasta (fasta_source file_name) = [] ->
      read_fasta_join parse_fasta dsa_join file_name dsa = dsa).
Proof.
  unfold read_fasta_join, read_fasta. cbn [app].
  destruct (parse_fasta (fasta_source file_name)) as [|s rest].
  - split; [cbn; lia | reflexivity].
  - cbn [List.length Nat.eqb]. rewrite length_app. cbn [List.length].
    split; [lia | discriminate].
Qed.

(** X8. In join mode every input gives one sequence at most, whatever
    number of records it holds: the calls of [read_fasta_join] leave no
    more sequences than there were before plus the number of calls, and
    the sequences that were there stay in front. *)
Theorem join_mode_one_sequence_per_input (calls : list (reader * string)) :
  forall dsa,
    Forall (fun call => fst call = Read_fasta_join) calls ->
    (List.length (fold_left call_reader calls dsa)
     <= List.length dsa + List.length calls)%nat
    /\ firstn (List.length dsa) (fold_left call_reader calls dsa) = dsa.
Proof.
  induction calls as [|call calls IH]; intros dsa Hall.
  - cbn. split; [lia | apply firstn_all].
  - inversion Hall as [|? ? Hc Hrest]; subst.
    cbn [fold_left List.length].
    assert (Hstep : call_reader dsa call
                    = read_fasta_join parse_fasta dsa_join (snd call) dsa).
    { destruct call as [r f]. cbn [fst] in Hc. subst r. reflexivity. }
    destruct (IH (call_reader dsa call) Hrest) as [Hlen Hpre].
    destruct (read_fasta_join_length (snd call) dsa) as [Hone _].
    rewrite Hstep in *.
    split; [lia|].
    assert (Hin : exists tl,
               read_fasta_join parse_fasta dsa_join (snd call) dsa = dsa ++ tl).
    { unfold read_fasta_join.
      destruct (List.length (read_fasta parse_fasta (snd call) []) =? 0)%nat.
      - exists []. rewrite app_nil_r. reflexivity.
      - eexists. reflexivity. }
    destruct Hin as [tl Etl].
    rewrite Etl in *. rewrite length_app in Hpre.
    rewrite <- (Nat.min_l (List.length dsa)
                          (List.length dsa + List.length tl)) at 1 by lia.
    rewrite <- firstn_firstn, Hpre.
    rewrite firstn_app, firstn_all, Nat.sub_diag, firstn_0, app_nil_r.
    reflexivity.
Qed.

End ReadersFurther.

(** ** The option loop *)

Lemma land_lnot_disjoint (a b : Z) :
  Z.land a b = 0 -> Z.land (Z.lnot a) b = b.
Proof.
  intros H. apply Z.bits_inj'. intros n Hn.
  rewrite Z.land_spec, Z.lnot_spec by exact Hn.
  assert (E : Z.testbit (Z.land a b) n = false) by (rewrite H; apply Z.bits_0).
  rewrite Z.land_spec in E.
  destruct (Z.testbit a n), (Z.testbit b n); cbn in *; congruence.
Qed.

Lemma flag_set_lor_keeps (flags other bit : Z) :
  Z.land other bit = 0 ->
  flag_set (Z.lor flags other) bit = flag_set flags bit.
Proof.
  intros H. unfold flag_set.
  rewrite Z.land_lor_distr_l, H, Z.lor_0_r. reflexivity.
Qed.

Lemma flag_set_lor_sets (flags bit : Z) :
  bit <> 0 -> flag_set (Z.lor flags bit) bit = true.
Proof.
  intros H. unfold flag_set.
  rewrite Z.land_lor_distr_l, Z.land_diag.
  destruct (Z.eqb_spec (Z.lor (Z.land flags bit) bit) 0) as [E|]; [|reflexivity].
  apply Z.lor_eq_0_iff in E. tauto.
Qed.

Lemma flag_set_lor_stays (flags other bit : Z) :
  flag_set flags bit = true -> flag_set (Z.lor flags other) bit = true.
Proof.
  unfold flag_set. rewrite Z.land_lor_distr_l.
  destruct (Z.eqb_spec (Z.land flags bit) 0); [discriminate|]. intros _.
  destruct (Z.eqb_spec (Z.lor (Z.land flags bit) (Z.land other bit)) 0)
    as [E|]; [|reflexivity].
  apply Z.lor_eq_0_iff in E. tauto.
Qed.

Lemma flag_set_clear_keeps (flags other bit : Z) :
  Z.land other bit = 0 ->
  flag_set (Z.land flags (Z.lnot other)) bit = flag_set flags bit.
Proof.
  intros H. unfold flag_set.
  rewrite <- Z.land_assoc, (land_lnot_disjoint _ _ H). reflexivity.
Qed.

Section OptionsFurther.

Variables F_FORWARD F_REVCOMP F_JOIN F_VERBOSE F_EXTRA_VERBOSE : Z.
Variable strtod : string -> option float.
Variable strtoul : string -> option Z.

Local Abbreviation parse_option :=
  (parse_option F_FORWARD F_REVCOMP F_JOIN F_VERBOSE F_EXTRA_VERBOSE
                strtod strtoul).
Local Abbreviation parse_options :=
  (parse_options F_FORWARD F_REVCOMP F_JOIN F_VERBOSE F_EXTRA_VERBOSE
                 strtod strtoul).
Local Abbreviation initial_state := (initial_state F_FORWARD).

Lemma parse_options_step (st : main_state) (c : getopt_result)
      (cs : list getopt_result) :
  parse_options st (c :: cs)
  = (st' <- parse_option st c ;; parse_options st' cs).
Proof. reflexivity. Qed.

Lemma parse_options_concat (cs1 cs2 : list getopt_result) :
  forall st,
    parse_options st (cs1 ++ cs2)
    = (st1 <- parse_options st cs1 ;; parse_options st1 cs2).
Proof.
  induction cs1 as [|c cs1 IH]; intros st; cbn; [reflexivity|].
  destruct (parse_option st c); cbn [bind]; auto.
Qed.

Lemma parse_option_usage (st : main_state) (c : getopt_result) :
  (calls_usage c = true -> parse_option st c = Exit 0)
  /\ (calls_usage c = false -> exists st', parse_option st c = Done st').
Proof.
  destruct c; cbn; split; intros H; try discriminate; eauto.
  - destruct (strtod optarg) as [prop|]; [|eauto].
    destruct (prop <? 0)%float, (1 <? prop)%float; cbn; eauto.
  - destruct (strtoul optarg); eexists; reflexivity.
Qed.

(** X9. The option loop leaves the program, with status 0, exactly when
    one of the options is -h or one that [getopt_long] does not know;
    otherwise it returns, whatever the arguments of -p and -l are. *)
Theorem parse_options_usage (cs : list getopt_result) :
  forall st,
    (existsb calls_usage cs = true -> parse_options st cs = Exit 0)
    /\ (existsb calls_usage cs = false ->
        exists st', parse_options st cs = Done st').
Proof.
  induction cs as [|c cs IH]; intros st; cbn [existsb].
  - split; [discriminate | intros _; eexists; reflexivity].
  - rewrite parse_options_step.
    destruct (parse_option_usage st c) as [Hu Hn].
    destruct (calls_usage c); cbn [orb].
    + split; [intros _; rewrite Hu by reflexivity; reflexivity | discriminate].
    + destruct (Hn eq_refl) as [st1 ->]. cbn [bind]. apply IH.
Qed.

(** X10. The probability the option loop leaves in
    [RANDOM_ANCHOR_PROP] is never below 0 and never above 1: a -p value
    outside of the range, or one that does not parse, is ignored. *)
Theorem parse_options_probability (cs : list getopt_result) :
  forall st st',
    (RANDOM_ANCHOR_PROP (st_globals st) <? 0)%float = false ->
    (1 <? RANDOM_ANCHOR_PROP (st_globals st))%float = false ->
    parse_options st cs = Done st' ->
    (RANDOM_ANCHOR_PROP (st_globals st') <? 0)%float = false
    /\ (1 <? RANDOM_ANCHOR_PROP (st_globals st'))%float = false.
Proof.
  induction cs as [|c cs IH]; intros st st' H0 H1 H.
  - inversion H; subst. auto.
  - rewrite parse_options_step in H.
    destruct (parse_option st c) as [st1| | |] eqn:E; cbn [bind] in H;
      try discriminate.
    apply (IH st1 st'); try exact H;
      destruct c; cbn in E; try discriminate;
        try (inversion E; subst; assumption).
    + destruct (strtod optarg) as [prop|]; [|inversion E; subst; assumption].
      destruct (prop <? 0)%float eqn:A, (1 <? prop)%float eqn:B; cbn in E;
        inversion E; subst; assumption.
    + destruct (strtoul optarg); inversion E; subst; assumption.
    + destruct (strtod optarg) as [prop|]; [|inversion E; subst; assumption].
      destruct (prop <? 0)%float eqn:A, (1 <? prop)%float eqn:B; cbn in E;
        inversion E; subst; assumption.
    + destruct (strtoul optarg); inversion E; subst; assumption.
Qed.

(** An option other than -l leaves [MIN_LENGTH] as it is. *)
Lemma parse_option_keeps_MIN_LENGTH (st st' : main_state)
      (c : getopt_result) :
  is_Opt_l c = false ->
  parse_option st c = Done st' ->
  MIN_LENGTH (st_globals st') = MIN_LENGTH (st_globals st).
Proof.
  intros Hl H. destruct c; cbn in *; try discriminate;
    try (inversion H; subst; reflexivity).
  destruct (strtod optarg) as [prop|]; [|inversion H; subst; reflexivity].
  destruct (prop <? 0)%float, (1 <? prop)%float; cbn in H;
    inversion H; subst; reflexivity.
Qed.

Lemma parse_options_keep_MIN_LENGTH (cs : list getopt_result) :
  forall st st',
    forallb (fun c => negb (is_Opt_l c)) cs = true ->
    parse_options st cs = Done st' ->
    MIN_LENGTH (st_globals st') = MIN_LENGTH (st_globals st).
Proof.
  induction cs as [|c cs IH]; intros st st' Hall H.
  - inversion H; subst. reflexivity.
  - cbn [forallb] in Hall. apply andb_true_iff in Hall.
    destruct Hall as [Hc Hall]. apply negb_true_iff in Hc.
    rewrite parse_options_step in H.
    destruct (parse_option st c) as [st1| | |] eqn:E; cbn [bind] in H;
      try discriminate.
    rewrite (IH st1 st' Hall H).
    apply (parse_option_keeps_MIN_LENGTH st st1 c Hc E).
Qed.

(** X11. The last -l whose argument parses decides the threshold: after
    it [MIN_LENGTH] holds the number converted to [int], and for a number
    between 1 and [INT_MAX] that number is the threshold of every
    [dist_anchor] call. *)
Theorem parse_options_min_length (st st' : main_state)
        (before after : list getopt_result) (optarg : string) (n : Z) :
  strtoul optarg = Some n ->
  forallb (fun c => negb (is_Opt_l c)) after = true ->
  parse_options st (before ++ Opt_l optarg :: after) = Done st' ->
  MIN_LENGTH (st_globals st') = to_int n
  /\ (0 < n <= INT_MAX ->
      forall pow fuel C gc,
        threshold_of pow fuel (st_globals st') C gc = Done n).
Proof.
  intros Hn Hafter H.
  rewrite parse_options_concat in H.
  destruct (parse_options st before) as [st1| | |]; cbn [bind] in H;
    try discriminate.
  rewrite parse_options_step in H. cbn in H. rewrite Hn in H. cbn [bind] in H.
  pose proof (parse_options_keep_MIN_LENGTH after _ _ Hafter H) as E.
  cbn in E. split; [exact E|].
  intros Hr pow fuel C gc. unfold threshold_of. rewrite E.
  rewrite to_int_small by lia.
  destruct (Z.eqb_spec n 0); [lia|]. cbn [negb].
  rewrite wrap_small; [reflexivity|].
  unfold INT_MAX in Hr. rewrite two_pow_64. lia.
Qed.

End OptionsFurther.

Section VerboseLevels.

Variables F_FORWARD F_REVCOMP F_JOIN F_VERBOSE F_EXTRA_VERBOSE : Z.
Variable strtod : string -> option float.
Variable strtoul : string -> option Z.

Local Abbreviation parse_option :=
  (parse_option F_FORWARD F_REVCOMP F_JOIN F_VERBOSE F_EXTRA_VERBOSE
                strtod strtoul).
Local Abbreviation parse_options :=
  (parse_options F_FORWARD F_REVCOMP F_JOIN F_VERBOSE F_EXTRA_VERBOSE
                 strtod strtoul).

(** An option other than -v changes no bit that the flags of -b, -r and
    -j do not share. *)
Lemma parse_option_keeps_bit (bit : Z) (st st' : main_state)
      (c : getopt_result) :
  Z.land F_FORWARD bit = 0 -> Z.land F_REVCOMP bit = 0 ->
  Z.land F_JOIN bit = 0 ->
  is_Opt_v c = false ->
  parse_option st c = Done st' ->
  flag_set (FLAGS (st_globals st')) bit = flag_set (FLAGS (st_globals st)) bit.
Proof.
  intros Hf Hr Hj Hv H.
  destruct c; cbn in H; try discriminate;
    try (inversion H; subst; reflexivity).
  - inversion H; subst. cbn. apply flag_set_lor_keeps.
    rewrite Z.land_lor_distr_l, Hf, Hr. reflexivity.
  - inversion H; subst. cbn. apply flag_set_lor_keeps, Hj.
  - inversion H; subst. cbn.
    rewrite flag_set_lor_keeps by exact Hr.
    apply flag_set_clear_keeps, Hf.
  - destruct (strtod optarg) as [prop|]; [|inversion H; subst; reflexivity].
    destruct (prop <? 0)%float, (1 <? prop)%float; cbn in H;
      inversion H; subst; reflexivity.
  - destruct (strtoul optarg); inversion H; subst; reflexivity.
Qed.

Hypothesis verbose_bit : F_VERBOSE <> 0.
Hypothesis extra_bit : F_EXTRA_VERBOSE <> 0.
Hypothesis verbose_extra : Z.land F_VERBOSE F_EXTRA_VERBOSE = 0.
Hypothesis forward_verbose : Z.land F_FORWARD F_VERBOSE = 0.
Hypothesis reverse_verbose : Z.land F_REVCOMP F_VERBOSE = 0.
Hypothesis join_verbose : Z.land F_JOIN F_VERBOSE = 0.
Hypothesis forward_extra : Z.land F_FORWARD F_EXTRA_VERBOSE = 0.
Hypothesis reverse_extra : Z.land F_REVCOMP F_EXTRA_VERBOSE = 0.
Hypothesis join_extra : Z.land F_JOIN F_EXTRA_VERBOSE = 0.

Lemma parse_option_v (st : main_state) :
  exists st',
    parse_option st Opt_v = Done st'
    /\ flag_set (FLAGS (st_globals st')) F_VERBOSE = true
    /\ flag_set (FLAGS (st_globals st')) F_EXTRA_VERBOSE
       = flag_set (FLAGS (st_globals st)) F_EXTRA_VERBOSE
         || flag_set (FLAGS (st_globals st)) F_VERBOSE.
Proof.
  eexists. split; [reflexivity|]. cbn.
  destruct (flag_set (FLAGS (st_globals st)) F_VERBOSE) eqn:V.
  - split.
    + apply flag_set_lor_stays, V.
    + rewrite flag_set_lor_sets by exact extra_bit.
      rewrite orb_true_r. reflexivity.
  - split.
    + apply flag_set_lor_sets, verbose_bit.
    + rewrite flag_set_lor_keeps by exact verbose_extra.
      rewrite orb_false_r. reflexivity.
Qed.

Lemma parse_options_verbose (cs : list getopt_result) :
  forall st st',
    parse_options st cs = Done st' ->
    let n := List.length (filter is_Opt_v cs) in
    let verbose := flag_set (FLAGS (st_globals st)) F_VERBOSE in
    let extra := flag_set (FLAGS (st_globals st)) F_EXTRA_VERBOSE in
    flag_set (FLAGS (st_globals st')) F_VERBOSE = verbose || (1 <=? n)%nat
    /\ flag_set (FLAGS (st_globals st')) F_EXTRA_VERBOSE
       = extra || (verbose && (1 <=? n)%nat) || (2 <=? n)%nat.
Proof.
  induction cs as [|c cs IH]; intros st st' H.
  - inversion H; subst. cbn.
    rewrite andb_false_r, !orb_false_r. auto.
  - change (parse_options st (c :: cs))
      with (st1 <- parse_option st c ;; parse_options st1 cs) in H.
    destruct (parse_option st c) as [st1| | |] eqn:E; cbn [bind] in H;
      try discriminate.
    specialize (IH st1 st' H). cbv zeta in IH. destruct IH as [IHv IHx].
    cbn [filter]. destruct (is_Opt_v c) eqn:V.
    + destruct c; try discriminate.
      destruct (parse_option_v st) as (st2 & E2 & Hv & Hx).
      rewrite E in E2. inversion E2; subst st2.
      rewrite IHv, IHx, Hv, Hx. cbn [List.length].
      destruct (List.length (filter is_Opt_v cs)) as [|[|n]];
        destruct (flag_set (FLAGS (st_globals st)) F_VERBOSE),
                 (flag_set (FLAGS (st_globals st)) F_EXTRA_VERBOSE);
        split; reflexivity.
    + rewrite IHv, IHx.
      rewrite (parse_option_keeps_bit F_VERBOSE st st1 c) by assumption.
      rewrite (parse_option_keeps_bit F_EXTRA_VERBOSE st st1 c) by assumption.
      split; reflexivity.
Qed.

(** X12. From a state with neither verbose bit set, the option loop
    leaves [F_VERBOSE] set exactly when -v occurs on the command line and
    [F_EXTRA_VERBOSE] set exactly when it occurs twice or more. *)
Theorem parse_options_verbose_levels (st st' : main_state)
        (cs : list getopt_result) :
  flag_set (FLAGS (st_globals st)) F_VERBOSE = false ->
  flag_set (FLAGS (st_globals st)) F_EXTRA_VERBOSE = false ->
  parse_options st cs = Done st' ->
  flag_set (FLAGS (st_globals st')) F_VERBOSE
  = (1 <=? List.length (filter is_Opt_v cs))%nat
  /\ flag_set (FLAGS (st_globals st')) F_EXTRA_VERBOSE
     = (2 <=? List.length (filter is_Opt_v cs))%nat.
Proof.
  intros Hv Hx H.
  destruct (parse_options_verbose cs st st' H) as [Ev Ex].
  rewrite Ev, Ex, Hv, Hx. split; reflexivity.
Qed.

End VerboseLevels.

Lemma parse_options_verbose_levels_witness :
  let st' := {| st_globals := {| FLAGS := 32 + 16 + 8 + 4;
                                 RANDOM_ANCHOR_PROP := 0x1.999999999999ap-5;
                                 MIN_LENGTH := 0 |};
                version_flag := false |} in
  flag_set (FLAGS (st_globals st')) 4
  = (1 <=? List.length (filter is_Opt_v [Opt_v; Opt_j; Opt_v; Opt_v]))%nat
  /\ flag_set (FLAGS (st_globals st')) 8
     = (2 <=? List.length (filter is_Opt_v [Opt_v; Opt_j; Opt_v; Opt_v]))%nat.
Proof.
  intros st'.
  apply (parse_options_verbose_levels 32 64 16 4 8
           (fun _ => None) (fun _ => None)
           ltac:(discriminate) ltac:(discriminate)
           ltac:(reflexivity) ltac:(reflexivity) ltac:(reflexivity)
           ltac:(reflexivity) ltac:(reflexivity) ltac:(reflexivity)
           ltac:(reflexivity)
           (initial_state 32) st' [Opt_v; Opt_j; Opt_v; Opt_v]).
  - reflexivity.
  - reflexivity.
  - vm_compute. reflexivity.
Defined.

Section PassesFurther.

Variables F_FORWARD F_REVCOMP F_JOIN F_VERBOSE F_EXTRA_VERBOSE : Z.
Variable strtod : string -> option float.
Variable strtoul : string -> option Z.

Local Abbreviation parse_option :=
  (parse_option F_FORWARD F_REVCOMP F_JOIN F_VERBOSE F_EXTRA_VERBOSE
                strtod strtoul).
Local Abbreviation parse_options :=
  (parse_options F_FORWARD F_REVCOMP F_JOIN F_VERBOSE F_EXTRA_VERBOSE
                 strtod strtoul).
Local Abbreviation forward_pass := (forward_pass F_FORWARD).
Local Abbreviation reverse_pass := (reverse_pass F_REVCOMP).

Hypothesis forward_bit : F_FORWARD <> 0.
Hypothesis reverse_bit : F_REVCOMP <> 0.

Lemma parse_option_some_pass (st st' : main_state) (c : getopt_result) :
  forward_pass st || reverse_pass st = true ->
  parse_option st c = Done st' ->
  forward_pass st' || reverse_pass st' = true.
Proof.
  unfold forward_pass, reverse_pass. intros Hinv H.
  assert (Hlor : forall other,
             flag_set (Z.lor (FLAGS (st_globals st)) other) F_FORWARD
             || flag_set (Z.lor (FLAGS (st_globals st)) other) F_REVCOMP
             = true).
  { intros other. apply orb_true_iff in Hinv. apply orb_true_iff.
    destruct Hinv as [Hf|Hr]; [left | right];
      apply flag_set_lor_stays; assumption. }
  destruct c; cbn in H; try discriminate;
    try (inversion H; subst; cbn; first [exact Hinv | apply Hlor]).
  - inversion H; subst. cbn.
    rewrite (flag_set_lor_sets _ F_REVCOMP reverse_bit).
    apply orb_true_r.
  - destruct (strtod optarg) as [prop|]; [|inversion H; subst; exact Hinv].
    destruct (prop <? 0)%float, (1 <? prop)%float; cbn in H;
      inversion H; subst; exact Hinv.
  - destruct (strtoul optarg); inversion H; subst; exact Hinv.
Qed.

(** X13. Whatever the options, [run] has a pass to make: the option loop
    started by [main] never leaves both the forward and the
    reverse-complement pass disabled. *)
Theorem parse_options_some_pass (cs : list getopt_result)
        (st' : main_state) :
  parse_options (initial_state F_FORWARD) cs = Done st' ->
  forward_pass st' || reverse_pass st' = true.
Proof.
  assert (G : forall cs st st',
             forward_pass st || reverse_pass st = true ->
             parse_options st cs = Done st' ->
             forward_pass st' || reverse_pass st' = true).
  { clear cs st'. induction cs as [|c cs IH]; intros st st' Hinv H.
    - inversion H; subst. exact Hinv.
    - change (parse_options st (c :: cs))
        with (st1 <- parse_option st c ;; parse_options st1 cs) in H.
      destruct (parse_option st c) as [st1| | |] eqn:E; cbn [bind] in H;
        try discriminate.
      apply (IH st1 st'); [|exact H].
      apply (parse_option_some_pass st st1 c Hinv E). }
  apply G. unfold forward_pass, reverse_pass. cbn.
  unfold flag_set. rewrite Z.land_diag.
  destruct (Z.eqb_spec F_FORWARD 0); [contradiction | reflexivity].
Qed.

End PassesFurther.

Lemma parse_options_some_pass_witness :
  forward_pass 32 {| st_globals := {| FLAGS := 64 + 16;
                                      RANDOM_ANCHOR_PROP := 0x1.999999999999ap-5;
                                      MIN_LENGTH := 0 |};
                     version_flag := false |}
  || reverse_pass 64 {| st_globals := {| FLAGS := 64 + 16;
                                         RANDOM_ANCHOR_PROP := 0x1.999999999999ap-5;
                                         MIN_LENGTH := 0 |};
                        version_flag := false |} = true.
Proof.
  apply (parse_options_some_pass 32 64 16 4 8 (fun _ => None) (fun _ => None)
           ltac:(discriminate) ltac:(discriminate)
           [Opt_b; Opt_j; Opt_r]).
  vm_compute. reflexivity.
Defined.

Lemma parse_options_probability_witness :
  (RANDOM_ANCHOR_PROP
     (st_globals {| st_globals := {| FLAGS := 32;
                                     RANDOM_ANCHOR_PROP := 0.25;
                                     MIN_LENGTH := 0 |};
                    version_flag := false |}) <? 0)%float = false
  /\ (1 <? RANDOM_ANCHOR_PROP
            (st_globals {| st_globals := {| FLAGS := 32;
                                            RANDOM_ANCHOR_PROP := 0.25;
                                            MIN_LENGTH := 0 |};
                           version_flag := false |}))%float = false.
Proof.
  apply (parse_options_probability 32 64 16 4 8
           (fun s => if String.eqb s "0.25" then Some 0.25%float
                     else if String.eqb s "2" then Some 2%float else None)
           (fun _ => None)
           [Opt_p "0.25"; Opt_p "2"; Opt_p "x"] (initial_state 32)).
  - vm_compute. reflexivity.
  - vm_compute. reflexivity.
  - vm_compute. reflexivity.
Defined.

Lemma parse_options_min_length_witness :
  threshold_of pow_int 10
               {| FLAGS := 32; RANDOM_ANCHOR_PROP := 0x1.999999999999ap-5;
                  MIN_LENGTH := 20 |} subject_example 0.5%float
  = Done 20.
Proof.
  refine (proj2 (parse_options_min_length 32 64 16 4 8
                   (fun _ => None)
                   (fun s => if String.eqb s "20" then Some 20 else None)
                   (initial_state 32)
                   {| st_globals := {| FLAGS := 32;
                                       RANDOM_ANCHOR_PROP := 0x1.999999999999ap-5;
                                       MIN_LENGTH := 20 |};
                      version_flag := false |}
                   [Opt_l "7x"] [Opt_p "1"] "20" 20 _ _ _) _
                pow_int 10%nat subject_example 0.5%float).
  - reflexivity.
  - reflexivity.
  - vm_compute. reflexivity.
  - unfold INT_MAX. lia.
Defined.

Lemma join_mode_one_sequence_per_input_witness :
  let parse_fasta := fun src : source =>
        match src with
        | Stdin => []
        | File _ => [ {| seq_S := list_ascii_of_string "ACGT"; seq_len := 4;
                         seq_name := "s1"; seq_gc := 0.5%float |};
                      {| seq_S := list_ascii_of_string "GG"; seq_len := 2;
                         seq_name := "s2"; seq_gc := 1%float |} ]
        end in
  let dsa_join := fun l : list seq_t =>
        {| seq_S := flat_map seq_S l; seq_len := 6; seq_name := "";
           seq_gc := 0.5%float |} in
  (List.length
     (fold_left (call_reader parse_fasta dsa_join)
                [(Read_fasta_join, "a.fa"%string); (Read_fasta_join, "-"%string)]
                []) <= 0 + 2)%nat.
Proof.
  intros parse_fasta dsa_join.
  apply (join_mode_one_sequence_per_input parse_fasta dsa_join
           [(Read_fasta_join, "a.fa"%string); (Read_fasta_join, "-"%string)]
           []).
  repeat constructor.
Defined.

(** ** main *)

Section MainFurther.

Variables F_FORWARD F_REVCOMP F_JOIN F_VERBOSE F_EXTRA_VERBOSE : Z.
Variable strtod : string -> option float.
Variable strtoul : string -> option Z.
Variable pow : float -> float -> float.
Variable get_match_cached : esa_s -> list ascii -> Z -> lcp_inter_t.
Variable parse_fasta : source -> list seq_t.
Variable dsa_join : list seq_t -> seq_t.
Variable esa_init : seq_t -> option esa_s.
Variable revcomp : list ascii -> Z -> list ascii.

Local Abbreviation parse_options :=
  (parse_options F_FORWARD F_REVCOMP F_JOIN F_VERBOSE F_EXTRA_VERBOSE
                 strtod strtoul).
Local Abbreviation main :=
  (main F_FORWARD F_REVCOMP F_JOIN F_VERBOSE F_EXTRA_VERBOSE strtod strtoul
        pow get_match_cached parse_fasta dsa_join esa_init revcomp).

(** X14. In join mode with a single path, [main] cannot go on without
    the standard input: when that holds no sequence, at most one sequence
    has been read and the program leaves with status 1 (status 0 when
    --version was given). *)
Theorem main_join_single_path_empty_stdin (fuel : nat)
        (cs : list getopt_result) (st : main_state) (path : string) :
  parse_options (initial_state F_FORWARD) cs = Done st ->
  flag_set (FLAGS (st_globals st)) F_JOIN = true ->
  parse_fasta Stdin = [] ->
  (3 <= fuel)%nat ->
  main fuel cs [path] = Exit (if version_flag st then 0 else 1).
Proof.
  intros Hopts Hjoin Hstdin Hfuel. unfold main.
  rewrite Hopts. cbn [bind].
  destruct (version_flag st); [reflexivity|].
  rewrite Hjoin. cbn [andb List.length Nat.eqb].
  destruct fuel as [|[|[|fuel]]]; try lia.
  rewrite !parse_files_S, Hjoin.
  destruct (Z.leb_spec 2 0); [lia|].
  destruct (Z.leb_spec (2 - 1) 0); [lia|].
  destruct (Z.leb_spec (2 - 1 - 1) 0); [|lia].
  cbn [bind fold_left]. unfold call_reader. cbn [fst snd].
  rewrite (proj2 (read_fasta_join_length parse_fasta dsa_join "-" _))
    by exact Hstdin.
  destruct (read_fasta_join_length parse_fasta dsa_join path []) as [Hlen _].
  cbn [List.length] in Hlen.
  destruct (Nat.ltb_spec
              (List.length (read_fasta_join parse_fasta dsa_join path [])) 2);
    [reflexivity | lia].
Qed.

End MainFurther.

Lemma main_join_single_path_empty_stdin_witness :
  main 32 64 16 4 8 (fun _ => None) (fun _ => None) pow_int get_match_longest
       (fun src => match src with
                   | Stdin => []
                   | File _ => [ {| seq_S := list_ascii_of_string "ACGT";
                                    seq_len := 4; seq_name := "s1";
                                    seq_gc := 0.5%float |} ]
                   end)
       (fun l => {| seq_S := flat_map seq_S l; seq_len := 4; seq_name := "";
                    seq_gc := 0.5%float |})
       (fun _ => Some subject_example)
       (fun s _ => rev s)
       5 [Opt_j] ["genomes/a.fasta"%string]
  = Exit 1.
Proof.
  apply (main_join_single_path_empty_stdin 32 64 16 4 8
           (fun _ => None) (fun _ => None) pow_int get_match_longest _ _ _ _
           5 [Opt_j]
           {| st_globals := {| FLAGS := 48;
                               RANDOM_ANCHOR_PROP := 0x1.999999999999ap-5;
                               MIN_LENGTH := 0 |};
              version_flag := false |}
           "genomes/a.fasta").
  - vm_compute. reflexivity.
  - reflexivity.
  - reflexivity.
  - lia.
Defined.

(** X15. The checks of [main] pass exactly when every sequence has a
    length that is not 0 and not above [(INT_MAX - 1) / 2]; otherwise the
    program leaves with status 1. A sequence that has passed them never
    gets the closing line of [dist_anchor]. *)
Theorem validate_spec (seqs : list seq_t) :
  (validate seqs = Done tt
   <-> Forall (fun s => 0 <> seq_len s /\ seq_len s <= LENGTH_LIMIT) seqs)
  /\ (validate seqs = Done tt \/ validate seqs = Exit 1)
  /\ (validate seqs = Done tt ->
      Forall (fun s => is_size (seq_len s) ->
                       identical_note 0 0 (seq_len s) = []) seqs).
Proof.
  split; [|split].
  - split; [apply validate_lengths|].
    induction 1 as [|s l [H0 H1] _ IH]; cbn [validate]; [reflexivity|].
    destruct (Z.gtb_spec (seq_len s) LENGTH_LIMIT); [lia|].
    destruct (Z.eqb_spec (seq_len s) 0); [lia | exact IH].
  - induction seqs as [|s seqs IH]; cbn [validate]; [left; reflexivity|].
    destruct (seq_len s >? LENGTH_LIMIT); [right; reflexivity|].
    destruct (seq_len s =? 0); [right; reflexivity | exact IH].
  - intros H. apply validate_lengths in H.
    eapply Forall_impl; [|exact H].
    intros s [H0 _] Hs. unfold is_size in Hs. unfold identical_note.
    destruct (Z.geb_spec 0 (seq_len s)); [lia | reflexivity].
Qed.

(** ** The name of a joined sequence, further *)

Section JoinNameFurther.

Local Open Scope string_scope.

Lemma strndup_all (s : string) : strndup s (String.length s) = s.
Proof. induction s as [|x s IH]; simpl; [reflexivity | now rewrite IH]. Qed.

Lemma strrchr_absent (c : ascii) (s : string) :
  ~ occurs c s -> strrchr s c = None.
Proof.
  unfold occurs. induction s as [|x s IH]; simpl; intros H; [reflexivity|].
  rewrite IH by tauto.
  destruct (Ascii.eqb_spec x c); [tauto | reflexivity].
Qed.

Lemma strchrnul_absent (c : ascii) (s : string) :
  ~ occurs c s -> strchrnul s c = "".
Proof.
  unfold occurs. induction s as [|x s IH]; simpl; intros H; [reflexivity|].
  destruct (Ascii.eqb_spec x c); [tauto | apply IH; tauto].
Qed.

Lemma strrchr_last (c : ascii) (dir f : string) :
  ~ occurs c f -> strrchr (dir ++ String c f) c = Some (String c f).
Proof.
  intros H. induction dir as [|x dir IH]; simpl.
  - rewrite (strrchr_absent c f H), Ascii.eqb_refl. reflexivity.
  - rewrite IH. reflexivity.
Qed.

Lemma basename_no_slash (file_name : string) :
  ~ occurs "/" (basename file_name).
Proof.
  unfold basename.
  destruct (strrchr file_name "/") as [r|] eqn:E.
  - destruct (strrchr_Some _ _ _ E) as (pre & t & _ & -> & Hn). exact Hn.
  - apply strrchr_None, E.
Qed.

(** The name is the part of the base name in front of its first '.'. *)
Lemma join_name_decompose (file_name : string) :
  exists name rest,
    basename file_name = name ++ rest
    /\ join_name file_name = name
    /\ ~ occurs "." name
    /\ (rest = "" \/ exists t, rest = String "." t).
Proof.
  change (join_name file_name)
    with (strndup (basename file_name)
                  (String.length (basename file_name)
                   - String.length (strchrnul (basename file_name) "."))).
  destruct (strchrnul_spec "." (basename file_name))
    as (name & E & Hdot & Hrest).
  revert E Hrest. generalize (strchrnul (basename file_name) ".").
  intros rest E Hrest. exists name, rest. rewrite E.
  rewrite strndup_prefix. auto.
Qed.

(** X16. The name does not depend on the directories of the path, and it
    holds neither a '/' nor a '.': naming the file by its name gives the
    same name again. *)
Theorem join_name_basename (dir file_name : string) :
  (~ occurs "/" file_name ->
   join_name (dir ++ String "/" file_name) = join_name file_name)
  /\ ~ occurs "/" (join_name file_name)
  /\ ~ occurs "." (join_name file_name)
  /\ join_name (join_name file_name) = join_name file_name.
Proof.
  assert (Hchars : ~ occurs "/" (join_name file_name)
                   /\ ~ occurs "." (join_name file_name)).
  { destruct (join_name_decompose file_name) as (name & rest & E & -> & Hd & _).
    split; [|exact Hd].
    pose proof (basename_no_slash file_name) as Hs.
    rewrite E in Hs. intros F. apply Hs, occurs_append. left. exact F. }
  destruct Hchars as [Hs Hd].
  split; [|split; [exact Hs | split; [exact Hd|]]].
  - intros H. unfold join_name.
    rewrite (strrchr_last "/" dir file_name H),
      (strrchr_absent "/" file_name H).
    reflexivity.
  - unfold join_name at 1.
    rewrite (strrchr_absent "/" _ Hs), (strchrnul_absent "." _ Hd).
    cbn [String.length]. rewrite Nat.sub_0_r.
    apply strndup_all.
Qed.

(** X17. The name is empty exactly when nothing follows the last '/' of
    the path or what follows starts with a '.'. *)
Theorem join_name_empty (file_name : string) :
  join_name file_name = ""
  <-> basename file_name = ""
      \/ exists t, basename file_name = String "." t.
Proof.
  destruct (join_name_decompose file_name)
    as (name & rest & E & -> & Hd & Hrest).
  rewrite E. split.
  - intros ->. cbn [append]. exact Hrest.
  - intros [H | [t H]].
    + destruct name; [reflexivity | discriminate].
    + destruct name as [|x name]; [reflexivity|].
      cbn [append] in H. inversion H; subst.
      exfalso. apply Hd. unfold occurs. simpl. auto.
Qed.

End JoinNameFurther.

Lemma join_name_basename_witness :
  join_name ("data/run.1" ++ String "/" "reads.fa") = join_name "reads.fa".
Proof.
  refine (proj1 (join_name_basename "data/run.1" "reads.fa") _).
  unfold occurs. simpl. intuition discriminate.
Defined.

